(** * distmat.Wishart: a shallow embedding of [distmat/wishart.go]

    The Go file is glue code around four external packages ([mat64],
    [mathext], [distuv], [math/rand]).  The embedding keeps that shape:

    - [float64] is Rocq's primitive binary64 float, so [+], [-], [*],
      [<=] and [math.Sqrt] are the IEEE operations the Go code runs;
    - the matrix containers are lists of rows;
    - the numerical kernels and the scalar samplers of the external
      packages are the fields of the class [Collaborators];
    - the methods of [*Wishart] run in a small state-and-panic monad over
      the receiver, the caller's buffers and the random sources. *)

From Stdlib Require Import ZArith Floats Uint63.
From stdpp Require Import base option list gmap strings.

Local Open Scope Z_scope.

(** ** float64 *)

Abbreviation float64 := PrimFloat.float.

(** [float64(n)] for a Go [int] [n], [-2^63 < n < 2^63]: the nearest
    binary64 number, ties to even. *)
Definition float64_of_int (n : Z) : float64 :=
  if n <? 0 then PrimFloat.opp (PrimFloat.of_uint63 (Uint63.of_Z (- n)))
  else PrimFloat.of_uint63 (Uint63.of_Z n).

(** [math.Inf(-1)] and [math.Ln2]. *)
Definition Inf_neg : float64 := PrimFloat.neg_infinity.
Definition Ln2 : float64 := 0x1.62e42fefa39efp-1%float.

(** ** Rounding an integer to binary64, on integers

    The quantities the conversion [float64(n)] is specified with: the state
    of the shifter of [SpecFloat] after [k] steps, the round-up decision of
    round-to-nearest-even, and the integer a positive [z] rounds to. *)

(** The record after [k] shifts of [z]: quotient, round bit, sticky bit. *)
Definition shr_after (z : Z) (k : nat) : shr_record :=
  match k with
  | O => Build_shr_record z false false
  | S k' =>
      let rem := z mod 2 ^ Z.of_nat k in
      let half := 2 ^ Z.of_nat k' in
      Build_shr_record (z / 2 ^ Z.of_nat k) (half <=? rem)
        (negb (rem =? 0) && negb (rem =? half))
  end.

(** Round to nearest, ties to even, on the quotient and remainder. *)
Definition rnd_up (z : Z) (k : Z) : bool :=
  let rem := z mod 2 ^ k in
  let half := 2 ^ (k - 1) in
  (half <? rem) || ((rem =? half) && Z.odd (z / 2 ^ k)).

(** The integer a positive mantissa rounds to at precision 53. *)
Definition rnd53 (z : Z) : Z :=
  let n := Z.log2 z + 1 - 53 in
  if n <=? 0 then z else (z / 2 ^ n + Z.b2z (rnd_up z n)) * 2 ^ n.

(** Zero and the positive finite numbers. *)
Definition nonneg_finite (x : spec_float) : Prop :=
  match x with
  | S754_zero false | S754_finite false _ _ => True
  | _ => False
  end.

(** ** Panics and the monad of the methods *)

(** What a call does: it returns a value, it panics with a message, or it
    does not return (a sampler of [distuv] can loop for ever). *)
Inductive Result (A : Type) : Type :=
  | Ok (a : A)
  | Panic (msg : string)
  | NoReturn.
Arguments Ok {A} a.
Arguments Panic {A} msg.
Arguments NoReturn {A}.

Definition Result_map {A B} (f : A -> B) (r : Result A) : Result B :=
  match r with
  | Ok a => Ok (f a)
  | Panic msg => Panic msg
  | NoReturn => NoReturn
  end.

(** A method call threads a state and either returns, panics or hangs; the
    state at the point of the panic or of the hang is kept. *)
Definition StateM (S A : Type) : Type := S -> Result A * S.

Definition ret {S A} (a : A) : StateM S A := fun s => (Ok a, s).
Definition bind {S A B} (m : StateM S A) (k : A -> StateM S B) : StateM S B :=
  fun s => match m s with
           | (Ok a, s') => k a s'
           | (Panic msg, s') => (Panic msg, s')
           | (NoReturn, s') => (NoReturn, s')
           end.
Definition panic {S A} (msg : string) : StateM S A := fun s => (Panic msg, s).
Definition gets {S A} (f : S -> A) : StateM S A := fun s => (Ok (f s), s).
Definition modify {S} (f : S -> S) : StateM S unit := fun s => (Ok tt, f s).
Definition lift {S A} (r : Result A) : StateM S A := fun s => (r, s).

Notation "x <- m ;; k" := (bind m (fun x => k))
  (at level 100, m at next level, right associativity).
Notation "m ;;; k" := (bind m (fun _ => k))
  (at level 100, right associativity).

(** [for i := lo; i < hi; i++ { body }] over a local [a]. *)
Fixpoint for_loop {S A} (n : nat) (i : Z) (body : Z -> A -> StateM S A) (a : A)
  : StateM S A :=
  match n with
  | O => ret a
  | S n' => a' <- body i a ;; for_loop n' (i + 1) body a'
  end.
Definition for_range {S A} (lo hi : Z) (body : Z -> A -> StateM S A) (a : A)
  : StateM S A :=
  for_loop (Z.to_nat (hi - lo)) lo body a.

(** ** Matrix containers of [mat64] *)

(** Modelled from the spec: the containers of section 6 (fixed-order square
    storage with element get and set, dimension query, in-place scale,
    in-place copy, transpose view); their Go source is outside this
    repository.  A matrix is the list of its rows. *)
Definition Dense := list (list float64).

Record SymDense := mkSym { sym_rows : list (list float64) }.

Inductive TriKind := Upper | Lower.

Record TriDense := mkTri { tri_kind : TriKind; tri_rows : list (list float64) }.

Definition zeros (n : nat) : list (list float64) :=
  replicate n (replicate n 0%float).

Definition rows_at (m : list (list float64)) (i j : nat) : option float64 :=
  m !! i ≫= (.!! j).

(** [x.Symmetric()]. *)
Definition Symmetric (x : SymDense) : Z := Z.of_nat (length (sym_rows x)).
Definition SymAt (x : SymDense) (i j : nat) : option float64 :=
  rows_at (sym_rows x) i j.

(** [mat64.NewSymDense(n, nil)] and the zero value [&mat64.SymDense{}]. *)
Definition NewSymDense (n : Z) : SymDense := mkSym (zeros (Z.to_nat n)).
Definition SymDense_zero : SymDense := mkSym [].

(** [s.CopySym(a)]: copies the leading block of order [min] of the two
    orders into the receiver. *)
Definition CopySym (s a : SymDense) : SymDense :=
  let n := Nat.min (length (sym_rows a)) (length (sym_rows s)) in
  mkSym (imap (fun i srow =>
                 if decide (i < n)%nat
                 then take n (default [] (sym_rows a !! i)) ++ drop n srow
                 else srow) (sym_rows s)).

(** [s.ScaleSym(f, a)]: every entry of [a] times [f], into the receiver. *)
Definition ScaleSym (f : float64) (a : SymDense) : SymDense :=
  mkSym (map (map (PrimFloat.mul f)) (sym_rows a)).

(** [mat64.NewTriDense(n, kind, nil)]. *)
Definition NewTriDense (n : Z) (k : TriKind) : TriDense :=
  mkTri k (zeros (Z.to_nat n)).
Definition TriDense_zero : TriDense := mkTri Lower [].

Definition TriAt (t : TriDense) (i j : nat) : option float64 :=
  rows_at (tri_rows t) i j.
Definition TriN (t : TriDense) : Z := Z.of_nat (length (tri_rows t)).

Definition ErrRowAccess : string := "matrix: row index out of range".
Definition ErrColAccess : string := "matrix: column index out of range".
Definition ErrTriangleSet : string := "matrix: triangular set out of bounds".
Definition ErrShape : string := "matrix: dimension mismatch".
Definition badCholesky : string := "mat64: invalid Cholesky factorization".

(** [t.SetTri(i, j, v)]: bounds-checked store into the stored triangle. *)
Definition tri_set (t : TriDense) (p : Z * Z) (x : float64) : TriDense :=
  mkTri (tri_kind t)
    (alter (fun row => <[Z.to_nat p.2 := x]> row) (Z.to_nat p.1) (tri_rows t)).
Definition SetTri (t : TriDense) (i j : Z) (x : float64) : Result TriDense :=
  if negb ((0 <=? i) && (i <? TriN t)) then Panic ErrRowAccess
  else if negb ((0 <=? j) && (j <? TriN t)) then Panic ErrColAccess
  else if match tri_kind t with Upper => j <? i | Lower => i <? j end
       then Panic ErrTriangleSet
  else Ok (tri_set t (i, j) x).

(** [t.T()]: the transpose, as a general matrix. *)
Definition transpose (m : list (list float64)) : Dense :=
  map (fun j => map (fun row => default 0%float (row !! j)) m)
      (seq 0 (length m)).
Definition TriT (t : TriDense) : Dense := transpose (tri_rows t).

(** ** The external packages

    [mat64.Cholesky] and its kernels, [mathext.MvLgamma], [math.Exp], the
    samplers of [distuv] and the state behind a [*rand.Rand] are outside
    this repository.  They are taken as they are declared: one field per
    function the Go file calls, receivers that are overwritten as results,
    arguments passed by pointer as values that are only read.

    Two of their behaviours are part of what the Go file does and are kept:
    the methods of a [mat64.Cholesky] that holds no factorisation (the zero
    value, the receiver of a failed [Factorize], a factorisation of order
    zero) panic with [badCholesky], which [Valid] decides; and a sampler
    may panic or never return, so a draw is a computation over the random
    sources with all three outcomes. *)

Class Collaborators := {
  (** [mat64.Cholesky] and [error]. *)
  Cholesky : Type;
  GoError : Type;
  (** [*rand.Rand] (possibly nil) and the state of all random sources. *)
  Rand : Type;
  RngStore : Type;
  (** The zero value [mat64.Cholesky{}]. *)
  Cholesky_zero : Cholesky;
  (** Whether the value holds a factorisation: [Size], [LogDet] and
      [UFromCholesky] panic with [badCholesky] when it does not, and the
      fields below are what they return when it does. *)
  Valid : Cholesky -> bool;
  (** [ok := chol.Factorize(a)] on a fresh receiver. *)
  Factorize : SymDense -> Cholesky * bool;
  (** [chol.Size()], [chol.LogDet()]. *)
  Size : Cholesky -> Z;
  LogDet : Cholesky -> float64;
  (** [u.UFromCholesky(chol)] on a fresh receiver. *)
  UFromCholesky : Cholesky -> TriDense;
  (** [c.SetFromU(t)]. *)
  SetFromU : TriDense -> Cholesky;
  (** [s.FromCholesky(chol)]. *)
  FromCholesky : Cholesky -> SymDense;
  (** [err := m.SolveCholesky(chol, b)] on a fresh receiver. *)
  SolveCholesky : Cholesky -> Dense -> Dense * option GoError;
  (** [m.Mul(a, b)], [mat64.Trace(a)], [t.MulTri(a, b)]. *)
  Mul : Dense -> Dense -> Dense;
  Trace : Dense -> float64;
  MulTri : TriDense -> TriDense -> TriDense;
  (** [mathext.MvLgamma(v, p)] and [math.Exp(x)]. *)
  MvLgamma : float64 -> Z -> float64;
  Exp : float64 -> float64;
  (** [distuv.Normal{Mu, Sigma, Source}.Rand()] and
      [distuv.ChiSquared{K, Src}.Rand()]: the outcome of the call and the
      sources after it. *)
  Normal_Rand : float64 -> float64 -> Rand -> StateM RngStore float64;
  ChiSquared_Rand : float64 -> Rand -> StateM RngStore float64;
}.

(** [badDim], the panic value of the package, is declared in another file
    of the package. *)
Class PackageConsts := { badDim : string }.

(** Addresses of the caller's buffers. *)
Abbreviation loc := positive.

Section Wishart.
Context `{C : Collaborators} `{P : PackageConsts}.

(** ** The distribution *)

(** [once] is the done flag of the [sync.Once]; [v] is the pointer to the
    cached dense matrix, [None] while it is nil.  The pointee is reachable
    only through this unexported field. *)
Record Wishart := mkWishart {
  nu : float64;
  src : Rand;
  dim : Z;
  cholv : Cholesky;
  logdetv : float64;
  upper : TriDense;
  once : bool;
  v : option SymDense;
}.

(** [NewWishart(v, nu, src)]: the returned pair (pointer, [ok]), or a
    panic.  [u.UFromCholesky(&chol)] is the first call on the new
    factorisation and panics when it is not valid. *)
Definition NewWishart (vm : SymDense) (nu0 : float64) (src0 : Rand)
  : Result (option Wishart * bool) :=
  let dim0 := Symmetric vm in
  if (nu0 <=? float64_of_int (dim0 - 1))%float then
    Panic "wishart: nu must be greater than dim-1"
  else
    let '(chol, ok) := Factorize vm in
    if negb ok then Ok (None, false)
    else if negb (Valid chol) then Panic badCholesky
    else
      let u := UFromCholesky chol in
      Ok (Some {| nu := nu0; src := src0; dim := dim0; cholv := chol;
                  logdetv := LogDet chol; upper := u;
                  once := false; v := None |}, true).

(** ** State of a method call

    The receiver, the caller's [*SymDense] and [*Cholesky] buffers by
    address, and the random sources. *)

Record State := mkState {
  wish : Wishart;
  syms : gmap loc SymDense;
  chols : gmap loc Cholesky;
  rng : RngStore;
}.

Local Abbreviation M := (StateM State).

Definition set_wish (f : Wishart -> Wishart) : M unit :=
  modify (fun s => mkState (f (wish s)) (syms s) (chols s) (rng s)).
Definition set_syms (f : gmap loc SymDense -> gmap loc SymDense) : M unit :=
  modify (fun s => mkState (wish s) (f (syms s)) (chols s) (rng s)).
Definition set_chols (f : gmap loc Cholesky -> gmap loc Cholesky) : M unit :=
  modify (fun s => mkState (wish s) (syms s) (f (chols s)) (rng s)).

Definition nilDeref : string :=
  "runtime error: invalid memory address or nil pointer dereference".

(** Allocation of a new object, load and store through a pointer. *)
Definition new_sym (x : SymDense) : M loc :=
  l <- gets (fun s => fresh (dom (syms s))) ;;
  set_syms (insert l x) ;;; ret l.
Definition load_sym (l : loc) : M SymDense :=
  o <- gets (fun s => syms s !! l) ;;
  match o with Some x => ret x | None => panic nilDeref end.
Definition store_sym (l : loc) (x : SymDense) : M unit :=
  set_syms (insert l x).

Definition new_chol (c : Cholesky) : M loc :=
  l <- gets (fun s => fresh (dom (chols s))) ;;
  set_chols (insert l c) ;;; ret l.
Definition load_chol (l : loc) : M Cholesky :=
  o <- gets (fun s => chols s !! l) ;;
  match o with Some c => ret c | None => panic nilDeref end.
Definition store_chol (l : loc) (c : Cholesky) : M unit :=
  set_chols (insert l c).

(** A call of a sampler: its outcome, and the random sources as it left
    them. *)
Definition draw (f : StateM RngStore float64) : M float64 :=
  fun s => let '(x, r) := f (rng s) in
           (x, mkState (wish s) (syms s) (chols s) r).

(** ** Methods *)

(** [setV]: the body runs only on the first call ([sync.Once]).  The
    receiver of [FromCholesky] is the matrix of order [dim] allocated on
    the line before. *)
Definition setV : M unit :=
  w <- gets wish ;;
  if once w then ret tt
  else
    let v0 := NewSymDense (dim w) in
    let v1 := FromCholesky (cholv w) in
    set_wish (fun w => mkWishart (nu w) (src w) (dim w) (cholv w)
                         (logdetv w) (upper w) true (Some v1)).

(** [MeanSym(x)]. *)
Definition MeanSym (x : option loc) : M loc :=
  w <- gets wish ;;
  x <- match x with
       | None => new_sym (NewSymDense (dim w))
       | Some l => ret l
       end ;;
  xv <- load_sym x ;;
  let d := Symmetric xv in
  if negb (d =? dim w) then panic badDim
  else
    setV ;;;
    w <- gets wish ;;
    match v w with
    | None => panic nilDeref
    | Some wv =>
        store_sym x (CopySym xv wv) ;;;
        xv <- load_sym x ;;
        store_sym x (ScaleSym (nu w) xv) ;;;
        ret x
    end.

(** [logProbSymChol(cholX)]. *)
Definition logProbSymChol (cholX : Cholesky) : M float64 :=
  w <- gets wish ;;
  let logdetx := LogDet cholX in
  let u := UFromCholesky cholX in
  let '(vinvx, err) := SolveCholesky (cholv w) (TriT u) in
  match err with
  | Some _ => ret Inf_neg
  | None =>
      let vinvx := Mul vinvx (tri_rows u) in
      let tr := Trace vinvx in
      let fnu := nu w in
      let fdim := float64_of_int (dim w) in
      ret (0.5 * ((fnu - fdim - 1) * logdetx - tr - fnu * fdim * Ln2
                  - fnu * logdetv w)
           - MvLgamma (0.5 * fnu) (dim w))%float
  end.

(** [LogProbSym(x)]. *)
Definition LogProbSym (x : SymDense) : M float64 :=
  w <- gets wish ;;
  let dim0 := Symmetric x in
  if negb (dim0 =? dim w) then panic "dimension mismatch"
  else
    let '(chol, ok) := Factorize x in
    if negb ok then ret Inf_neg
    else logProbSymChol chol.

(** [LogProbSymChol(cholX)].  [cholX.Size()] panics on a value that holds
    no factorisation. *)
Definition LogProbSymChol (cholX : Cholesky) : M float64 :=
  w <- gets wish ;;
  if negb (Valid cholX) then panic badCholesky
  else
    let dim0 := Size cholX in
    if negb (dim0 =? dim w) then panic badDim
    else logProbSymChol cholX.

(** [ProbSym(x)]. *)
Definition ProbSym (x : SymDense) : M float64 :=
  l <- LogProbSym x ;; ret (Exp l).

(** [RandChol(c)]. *)
Definition RandChol (c : option loc) : M loc :=
  w <- gets wish ;;
  let norm := Normal_Rand 0 1 (src w) in
  let t := NewTriDense (dim w) Upper in
  t <- for_range 0 (dim w) (fun i t =>
         x <- draw (ChiSquared_Rand (nu w - float64_of_int i) (src w)) ;;
         lift (SetTri t i i (PrimFloat.sqrt x))) t ;;
  t <- for_range 0 (dim w) (fun i t =>
         for_range (i + 1) (dim w) (fun j t =>
           x <- draw norm ;;
           lift (SetTri t i j x)) t) t ;;
  let t := MulTri t (upper w) in
  c <- match c with
       | None => new_chol Cholesky_zero
       | Some l => ret l
       end ;;
  store_chol c (SetFromU t) ;;;
  ret c.

(** [RandSym(x)].  The local [c] lives at a fresh address for the
    duration of the call.  [x.FromCholesky(&c)] reuses its receiver: an
    empty one takes the order of the factorisation, any other must have
    that order already or the call panics with [ErrShape]. *)
Definition RandSym (x : option loc) : M loc :=
  x <- match x with
       | None => new_sym SymDense_zero
       | Some l => ret l
       end ;;
  c <- new_chol Cholesky_zero ;;
  RandChol (Some c) ;;;
  cv <- load_chol c ;;
  set_chols (delete c) ;;;
  xv <- load_sym x ;;
  if negb (Symmetric xv =? 0) && negb (Symmetric xv =? Size cv)
  then panic ErrShape
  else
    store_sym x (FromCholesky cv) ;;;
    ret x.

End Wishart.

Arguments Wishart {C}.
Arguments State {C}.

Abbreviation M := (StateM State).

(** ** A reference implementation of the external packages

    Textbook algorithms over binary64, used to run the model on concrete
    matrices: an unblocked upper Cholesky factorisation, triangular solves,
    products with left-to-right sums, series for [log], [exp] and [lgamma],
    and a linear congruential generator behind the samplers.  The theorems
    below hold for every instance of [Collaborators]; this one supplies
    their concrete inputs. *)

Module Ref.
Local Open Scope float_scope.

Definition get (m : list (list float64)) (i j : nat) : float64 :=
  default 0 (rows_at m i j).

Definition sum_with {A} (f : A -> float64) (l : list A) : float64 :=
  fold_left (fun acc a => acc + f a) l 0.

Record chol := mkChol { ch_n : Z; ch_u : list (list float64); ch_cond : float64 }.

(** Ratio of the extreme pivots, squared: an estimate of the condition
    number of [U^T U]. *)
Definition cond_of (n : nat) (u : list (list float64)) : float64 :=
  let ds := map (fun i => PrimFloat.abs (get u i i)) (seq 0 n) in
  let hi := fold_left (fun a d => if a <? d then d else a) ds 0 in
  let lo := fold_left (fun a d => if d <? a then d else a) ds infinity in
  let r := hi / lo in
  match n with O => 1 | _ => r * r end.

(** Row [i] of the factor, from the rows above it. *)
Definition chol_row (a us : list (list float64)) (n i : nat)
  : option (list float64) :=
  let d := get a i i - sum_with (fun r => default 0 (r !! i) * default 0 (r !! i)) us in
  if (d <=? 0) || is_nan d then None
  else
    let p := PrimFloat.sqrt d in
    Some (map (fun j =>
                 if decide (j < i)%nat then 0
                 else if decide (j = i) then p
                 else (get a i j
                       - sum_with (fun r => default 0 (r !! i) * default 0 (r !! j)) us) / p)
              (seq 0 n)).

Fixpoint chol_rows (a us : list (list float64)) (n : nat) (is_ : list nat)
  : option (list (list float64)) :=
  match is_ with
  | [] => Some us
  | i :: rest =>
      match chol_row a us n i with
      | None => None
      | Some r => chol_rows a (us ++ [r]) n rest
      end
  end.

Definition factorize (a : SymDense) : chol * bool :=
  let n := length (sym_rows a) in
  match chol_rows (sym_rows a) [] n (seq 0 n) with
  | Some u => (mkChol (Z.of_nat n) u (cond_of n u), true)
  | None => (mkChol (Z.of_nat n) [] infinity, false)
  end.

(** Columns of a matrix with [m] columns, and left-to-right products. *)
Definition ncols (b : list (list float64)) : nat := length (default [] (b !! 0%nat)).
Definition cols (b : list (list float64)) : list (list float64) :=
  map (fun j => map (fun row => default 0 (row !! j)) b) (seq 0 (ncols b)).
Definition mul (a b : list (list float64)) : list (list float64) :=
  map (fun arow =>
         map (fun j => sum_with (fun k => default 0 (arow !! k) * get b k j)
                         (seq 0 (length b)))
             (seq 0 (ncols b))) a.
Definition trace (a : list (list float64)) : float64 :=
  sum_with (fun i => get a i i) (seq 0 (length a)).

(** [U^T z = b], then [U y = z]. *)
Definition forward (u : list (list float64)) (n : nat) (b : list float64)
  : list float64 :=
  fold_left (fun z i =>
               z ++ [(default 0 (b !! i)
                      - sum_with (fun k => get u k i * default 0 (z !! k)) (seq 0 i))
                     / get u i i])
            (seq 0 n) [].
Definition backward (u : list (list float64)) (n : nat) (z : list float64)
  : list float64 :=
  fold_right (fun i y =>
                (default 0 (z !! i)
                 - sum_with (fun k => get u i k * default 0 (y !! (k - i - 1)%nat))
                     (seq (S i) (n - S i)))
                / get u i i :: y)
             [] (seq 0 n).

Definition solve (c : chol) (b : Dense) : Dense * option string :=
  let n := Z.to_nat (ch_n c) in
  let y := cols (map (fun bc => backward (ch_u c) n (forward (ch_u c) n bc)) (cols b)) in
  (y, if 1e16 <? ch_cond c then Some "matrix singular or near-singular"%string
      else None).

(** [log] by the series of [2 atanh((m-1)/(m+1))] on the mantissa. *)
Definition log (x : float64) : float64 :=
  if is_nan x || (x <? 0) then nan
  else if x =? 0 then neg_infinity
  else if is_infinity x then infinity
  else
    let '(m0, e) := frshiftexp x in
    let k0 := float64_of_int (Uint63.to_Z e - FloatOps.shift)%Z in
    let '(m, k) := if m0 <? 0.75 then (2 * m0, k0 - 1) else (m0, k0) in
    let s := (m - 1) / (m + 1) in
    let poly := fold_right (fun c acc => c + s * s * acc) 0
                  (map (fun i => 1 / float64_of_int (2 * i + 1)%Z) (seqZ 0 30)) in
    2 * s * poly + k * Ln2.

(** [exp] by scaling and squaring of a Taylor polynomial. *)
Definition exp (x : float64) : float64 :=
  if is_nan x then nan
  else if x <? -745.25 then 0
  else if 709.75 <? x then infinity
  else
    let y := x / 1024 in
    let t := fold_right (fun k acc => 1 + y / float64_of_int k * acc) 1 (seqZ 1 14) in
    let r := Nat.iter 10 (fun z => z * z) t in
    if 0 <=? r then r else 0.

(** [lgamma] by Stirling's series after ten steps of the recurrence. *)
Definition lgamma (x : float64) : float64 :=
  let z := x + 10 in
  (z - 0.5) * log z - z + 0x1.d67f1c864beb4p-1
  + 1 / (12 * z) - 1 / (360 * z * z * z) + 1 / (1260 * z * z * z * z * z)
  - sum_with (fun k => log (x + float64_of_int k)) (seqZ 0 10).

Definition mv_lgamma (x : float64) (p : Z) : float64 :=
  float64_of_int p * float64_of_int (p - 1) / 4 * 0x1.250d048e7a1bdp+0
  + sum_with (fun i => lgamma (x - float64_of_int i / 2)) (seqZ 0 p).

Definition log_det (c : chol) : float64 :=
  sum_with (fun i => 2 * log (get (ch_u c) i i)) (seq 0 (Z.to_nat (ch_n c))).

(** The samplers: a 64-bit linear congruential generator, a normal draw
    as a centred sum of twelve uniforms, a chi-squared draw by the
    Wilson-Hilferty cube.  Like the gamma sampler behind
    [distuv.ChiSquared], the chi-squared draw panics on a parameter that
    is not positive or is NaN, and does not return on an infinite one. *)
Definition lcg (s : Z) : Z :=
  ((s * 6364136223846793005 + 1442695040888963407) mod 2 ^ 64)%Z.
Definition uniform (s : Z) : float64 * Z :=
  let s' := lcg s in (float64_of_int (s' / 2 ^ 11)%Z / 0x1p53, s').
Definition std_normal (s : Z) : float64 * Z :=
  let '(x, s') := Nat.iter 12 (fun '(acc, s) => let '(u, s') := uniform s in (acc + u, s'))
                    (0, s) in
  (x - 6, s').
Definition normal_rand (mu sigma : float64) (_ : unit) : StateM Z float64 :=
  fun s => let '(z, s') := std_normal s in (Ok (z * sigma + mu), s').
Definition chi_squared_rand (k : float64) (_ : unit) : StateM Z float64 :=
  fun s =>
    if is_nan k then (Panic "unreachable"%string, s)
    else if k <=? 0 then (Panic "gamma: alpha <= 0"%string, s)
    else if is_infinity k then (NoReturn, s)
    else
      let '(z, s') := std_normal s in
      let a := 2 / (9 * k) in
      let c := 1 - a + z * PrimFloat.sqrt a in
      (Ok (k * c * c * c), s').

Definition impl : Collaborators := {|
  Cholesky := chol;
  GoError := string;
  Rand := unit;
  RngStore := Z;
  Cholesky_zero := mkChol 0 [] 0;
  Valid := fun c => match ch_u c with [] => false | _ => true end;
  Factorize := factorize;
  Size := ch_n;
  LogDet := log_det;
  UFromCholesky := fun c => mkTri Upper (ch_u c);
  SetFromU := fun t => mkChol (TriN t) (tri_rows t)
                         (cond_of (length (tri_rows t)) (tri_rows t));
  FromCholesky := fun c => mkSym (mul (cols (ch_u c)) (ch_u c));
  SolveCholesky := solve;
  Mul := mul;
  Trace := trace;
  MulTri := fun a b => mkTri (tri_kind a) (mul (tri_rows a) (tri_rows b));
  MvLgamma := mv_lgamma;
  Exp := exp;
  Normal_Rand := normal_rand;
  ChiSquared_Rand := chi_squared_rand;
|}.

Definition consts : PackageConsts := {| badDim := "distmat: dimension mismatch" |}.

End Ref.

(** ** Concrete inputs

    A two by two scale matrix with [nu = 4.5], candidate matrices, and the
    boundary cases: a scale matrix whose factor the reference solve rejects
    as ill-conditioned, a huge [nu], and a NaN [nu]. *)

Module Demo.
Local Open Scope float_scope.

Definition V : SymDense := mkSym [[2; 1]; [1; 3]].
Definition nu0 : float64 := 4.5.
Definition X : SymDense := mkSym [[2; 0.5]; [0.5; 1]].
Definition notPD : SymDense := mkSym [[1; 2]; [2; 1]].
Definition X1 : SymDense := mkSym [[6]].

Definition no_wishart : @Wishart Ref.impl :=
  @mkWishart Ref.impl 0 tt 0 (Ref.mkChol 0 [] 0) 0 TriDense_zero false None.
Definition built (r : Result (option (@Wishart Ref.impl) * bool))
  : @Wishart Ref.impl :=
  match r with Ok (Some w, _) => w | _ => no_wishart end.

Definition w0 : @Wishart Ref.impl :=
  Eval vm_compute in built (@NewWishart Ref.impl V nu0 tt).

(** No buffers; one symmetric buffer of order 2 at address 1. *)
Definition s0 : @State Ref.impl := @mkState Ref.impl w0 ∅ ∅ 42%Z.
Definition s1 : @State Ref.impl :=
  @mkState Ref.impl w0 {[ 1%positive := NewSymDense 2 ]} ∅ 42%Z.
(** One symmetric buffer of order 1 at address 1. *)
Definition s2 : @State Ref.impl :=
  @mkState Ref.impl w0 {[ 1%positive := X1 ]} ∅ 42%Z.

(** The spec's scenario: [dim = 1], [V = [[2]]], [nu = 3]. *)
Definition Vone : SymDense := mkSym [[2]].
Definition wone : @Wishart Ref.impl :=
  Eval vm_compute in built (@NewWishart Ref.impl Vone 3 tt).
Definition sone : @State Ref.impl := @mkState Ref.impl wone ∅ ∅ 42%Z.

(** Positive definite, with condition number [2^140]. *)
Definition Vill : SymDense := mkSym [[1; 0]; [0; 0x1p-140]].
Definition will : @Wishart Ref.impl :=
  Eval vm_compute in built (@NewWishart Ref.impl Vill 3 tt).
Definition sill : @State Ref.impl := @mkState Ref.impl will ∅ ∅ 42%Z.
Definition I2 : SymDense := mkSym [[1; 0]; [0; 1]].

(** [nu = 2^1023], far above [dim - 1 = 0]. *)
Definition Vbig : SymDense := mkSym [[100]].
Definition nubig : float64 := 0x1p1023.
Definition wbig : @Wishart Ref.impl :=
  Eval vm_compute in built (@NewWishart Ref.impl Vbig nubig tt).
Definition sbig : @State Ref.impl := @mkState Ref.impl wbig ∅ ∅ 42%Z.

(** [nu] NaN, and [nu] positive infinity. *)
Definition Vid : SymDense := mkSym [[1]].
Definition wnan : @Wishart Ref.impl :=
  Eval vm_compute in built (@NewWishart Ref.impl Vid nan tt).
Definition snan : @State Ref.impl := @mkState Ref.impl wnan ∅ ∅ 42%Z.
Definition winf : @Wishart Ref.impl :=
  Eval vm_compute in built (@NewWishart Ref.impl Vid infinity tt).
Definition sinf : @State Ref.impl := @mkState Ref.impl winf ∅ ∅ 42%Z.

(** The matrix of order zero. *)
Definition Vempty : SymDense := mkSym [].

End Demo.

(** ** Reachable states

    A distribution is built by [NewWishart]; afterwards callers invoke its
    methods in any order, and own (and may overwrite) the buffers and the
    random sources between calls. *)

Section Reachable.
Context `{C : Collaborators} `{P : PackageConsts}.

Definition constructed (vm : SymDense) (nu0 : float64) (src0 : Rand)
    (w : Wishart) : Prop :=
  NewWishart vm nu0 src0 = Ok (Some w, true).

Inductive Call :=
  | CallMeanSym (x : option loc)
  | CallProbSym (x : SymDense)
  | CallLogProbSym (x : SymDense)
  | CallLogProbSymChol (cholX : Cholesky)
  | CallRandSym (x : option loc)
  | CallRandChol (c : option loc).

(** The state a call leaves behind, whether it returns or panics. *)
Definition exec (c : Call) (s : State) : State :=
  match c with
  | CallMeanSym x => (MeanSym x s).2
  | CallProbSym x => (ProbSym x s).2
  | CallLogProbSym x => (LogProbSym x s).2
  | CallLogProbSymChol cholX => (LogProbSymChol cholX s).2
  | CallRandSym x => (RandSym x s).2
  | CallRandChol c => (RandChol c s).2
  end.

Inductive reachable (w0 : Wishart) : State -> Prop :=
  | reach_new sy ch r : reachable w0 (mkState w0 sy ch r)
  | reach_call c s : reachable w0 s -> reachable w0 (exec c s)
  | reach_caller s sy ch r :
      reachable w0 s -> reachable w0 (mkState (wish s) sy ch r).

(** Every row of [m] has [n] entries, and there are [n] rows. *)
Definition square (n : nat) (m : list (list float64)) : Prop :=
  length m = n /\ Forall (fun row => length row = n) m.

(** ** The Bartlett factor, by position

    The draws of one [RandChol] call, in the order they are made, and the
    positions of the triangular matrix they go to. *)

Definition Sampler : Type := StateM RngStore float64.

(** The samplers run one after the other, up to the first that does not
    return. *)
Fixpoint draws (fs : list Sampler) : StateM RngStore (list float64) :=
  match fs with
  | [] => ret []
  | f :: fs' => x <- f ;; xs <- draws fs' ;; ret (x :: xs)
  end.

(** The diagonal, top to bottom, and the strict upper triangle, row by
    row. *)
Definition diag_pos (d : Z) : list (Z * Z) :=
  (fun i => (i, i)) <$> seqZ 0 d.
Definition upper_pos (d : Z) : list (Z * Z) :=
  seqZ 0 d ≫= fun i => (fun j => (i, j)) <$> seqZ (i + 1) (d - (i + 1)).

Definition TriAtZ (t : TriDense) (p : Z * Z) : option float64 :=
  TriAt t (Z.to_nat p.1) (Z.to_nat p.2).
Definition entries (t : TriDense) (ps : list (Z * Z)) : list (option float64) :=
  TriAtZ t <$> ps.

(** One chi-squared sampler per diagonal position, with [nu - i] degrees
    of freedom at row [i]; one standard normal sampler per position above
    the diagonal. *)
Definition chi_K (w : Wishart) (i : Z) : float64 :=
  (nu w - float64_of_int i)%float.
Definition chi_samplers (w : Wishart) : list Sampler :=
  (fun i => ChiSquared_Rand (chi_K w i) (src w)) <$> seqZ 0 (dim w).
Definition normal_samplers (w : Wishart) : list Sampler :=
  (fun _ => Normal_Rand 0 1 (src w)) <$> upper_pos (dim w).

(** A straight-line run of "draw, then [SetTri]" steps. *)
Record Step := mkStep {
  st_pos : Z * Z;
  st_f : Sampler;
  st_g : float64 -> float64;
}.

Fixpoint run_steps (steps : list Step) (t : TriDense) : M TriDense :=
  match steps with
  | [] => ret t
  | st :: rest =>
      t' <- (x <- draw (st_f st) ;;
             lift (SetTri t (st_pos st).1 (st_pos st).2 (st_g st x))) ;;
      run_steps rest t'
  end.

Definition with_rng (s : State) (r : RngStore) : State :=
  mkState (wish s) (syms s) (chols s) r.

(** The matrix a run of steps builds from the values drawn. *)
Definition fill (steps : list Step) (xs : list float64) (t : TriDense)
  : TriDense :=
  fold_left (fun t sx => tri_set t (st_pos sx.1) (st_g sx.1 sx.2))
    (zip steps xs) t.

(** The steps of the two loops of [RandChol]. *)
Definition chi_steps (w : Wishart) : list Step :=
  (fun i => mkStep (i, i) (ChiSquared_Rand (chi_K w i) (src w)) PrimFloat.sqrt)
    <$> seqZ 0 (dim w).
Definition normal_steps (w : Wishart) : list Step :=
  seqZ 0 (dim w) ≫= fun i =>
    (fun j => mkStep (i, j) (Normal_Rand 0 1 (src w)) (fun x => x))
      <$> seqZ (i + 1) (dim w - (i + 1)).

(** The draws of one [RandChol] call for receiver [w]: the chi-squared
    values, then the normal values; and the triangular matrix [A] of the
    Bartlett decomposition that [RandChol] builds from them. *)
Definition Bartlett_draws (w : Wishart)
  : StateM RngStore (list float64 * list float64) :=
  xs <- draws (chi_samplers w) ;;
  ys <- draws (normal_samplers w) ;;
  ret (xs, ys).
Definition Bartlett (w : Wishart) (xs ys : list float64) : TriDense :=
  fill (normal_steps w) ys
    (fill (chi_steps w) xs (NewTriDense (dim w) Upper)).

(** A computation that leaves the receiver as it found it. *)
Definition keeps_wish {A} (m : M A) : Prop := forall s, wish (m s).2 = wish s.

(** The receiver once [setV] has run. *)
Definition filled (w : Wishart) : Wishart :=
  mkWishart (nu w) (src w) (dim w) (cholv w) (logdetv w) (upper w) true
    (Some (FromCholesky (cholv w))).

Definition with_syms (s : State) (sy : gmap loc SymDense) : State :=
  mkState (wish s) sy (chols s) (rng s).

End Reachable.

(** * Properties *)

(** ** Comparisons of binary64 numbers *)

Module F64.

Abbreviation prec := FloatOps.prec.
Abbreviation emax := FloatOps.emax.
Abbreviation emin := (-1074).

(** ** Iteration *)

Lemma iter_pos_nat {A} (f : A -> A) p x :
  SpecFloat.iter_pos f p x = Nat.iter (Pos.to_nat p) f x.
Proof.
  revert x. induction p as [p IH|p IH|]; intros x.
  - rewrite Pos2Nat.inj_xI. cbn [SpecFloat.iter_pos]. rewrite !IH.
    replace (S (2 * Pos.to_nat p))%nat with (Pos.to_nat p + Pos.to_nat p + 1)%nat by lia.
    rewrite !Nat.iter_add. reflexivity.
  - rewrite Pos2Nat.inj_xO. cbn [SpecFloat.iter_pos]. rewrite !IH.
    replace (2 * Pos.to_nat p)%nat with (Pos.to_nat p + Pos.to_nat p)%nat by lia.
    rewrite Nat.iter_add. reflexivity.
  - reflexivity.
Qed.

(** ** Number of binary digits *)

Lemma digits2_pos_bounds p :
  2 ^ (Zpos (digits2_pos p) - 1) <= Zpos p < 2 ^ Zpos (digits2_pos p).
Proof.
  induction p as [p IH|p IH|]; simpl digits2_pos.
  - rewrite Pos2Z.inj_succ.
    replace (Z.succ (Zpos (digits2_pos p)) - 1) with (Zpos (digits2_pos p)) by lia.
    rewrite Z.pow_succ_r by lia.
    assert (2 ^ Zpos (digits2_pos p) = 2 * 2 ^ (Zpos (digits2_pos p) - 1)).
    { rewrite <- Z.pow_succ_r by lia. f_equal. lia. }
    lia.
  - rewrite Pos2Z.inj_succ.
    replace (Z.succ (Zpos (digits2_pos p)) - 1) with (Zpos (digits2_pos p)) by lia.
    rewrite Z.pow_succ_r by lia.
    assert (2 ^ Zpos (digits2_pos p) = 2 * 2 ^ (Zpos (digits2_pos p) - 1)).
    { rewrite <- Z.pow_succ_r by lia. f_equal. lia. }
    lia.
  - simpl. lia.
Qed.

(** [digits] is determined by the bounds. *)
Lemma digits2_pos_unique p d :
  2 ^ (d - 1) <= Zpos p < 2 ^ d -> 0 < d -> Zpos (digits2_pos p) = d.
Proof.
  intros [H1 H2] Hd. pose proof (digits2_pos_bounds p) as [H3 H4].
  set (D := Zpos (digits2_pos p)) in *.
  assert (HD : 0 < D) by (subst D; lia).
  destruct (Z.lt_trichotomy D d) as [Hlt|[Heq|Hgt]]; [|exact Heq|].
  - assert (2 ^ D <= 2 ^ (d - 1)) by (apply Z.pow_le_mono_r; lia). lia.
  - assert (2 ^ d <= 2 ^ (D - 1)) by (apply Z.pow_le_mono_r; lia). lia.
Qed.

(** ** Right shifts with rounding bits *)

Lemma shr_1_spec m r s :
  0 <= m ->
  shr_1 (Build_shr_record m r s) = Build_shr_record (m / 2) (Z.odd m) (r || s).
Proof.
  intros Hm. rewrite <- Z.div2_div.
  destruct m as [|[p|p|]|p]; try lia; reflexivity.
Qed.


Lemma odd_mod2 q : Z.odd q = (q mod 2 =? 1).
Proof.
  rewrite Zmod_odd. destruct (Z.odd q); reflexivity.
Qed.

Lemma shr_iter z k :
  0 <= z -> Nat.iter k shr_1 (Build_shr_record z false false) = shr_after z k.
Proof.
  intros Hz. induction k as [|k IH]; [reflexivity|].
  simpl Nat.iter. rewrite IH. destruct k as [|k].
  - unfold shr_after. cbv zeta. rewrite shr_1_spec by exact Hz.
    change (2 ^ Z.of_nat 1) with 2. change (2 ^ Z.of_nat 0) with 1.
    f_equal.
    + rewrite odd_mod2. pose proof (Z.mod_pos_bound z 2 ltac:(lia)).
      destruct (Z.eqb_spec (z mod 2) 1), (Z.leb_spec 1 (z mod 2)); try reflexivity; lia.
    + pose proof (Z.mod_pos_bound z 2 ltac:(lia)).
      destruct (Z.eqb_spec (z mod 2) 0), (Z.eqb_spec (z mod 2) 1); simpl; try reflexivity; lia.
  - unfold shr_after at 1. cbv zeta.
    set (K := Z.of_nat (S k)).
    assert (HK : 0 < K) by (subst K; lia).
    assert (Hk' : Z.of_nat k = K - 1) by (subst K; lia).
    rewrite Hk'.
    rewrite shr_1_spec by (apply Z.div_pos; [lia|apply Z.pow_pos_nonneg; lia]).
    unfold shr_after.
    replace (Z.of_nat (S (S k))) with (K + 1) by (subst K; lia).
    replace (Z.of_nat (S k)) with K by reflexivity.
    set (q := z / 2 ^ K). set (rem := z mod 2 ^ K). set (half := 2 ^ (K - 1)).
    assert (Hpow : 0 < 2 ^ K) by (apply Z.pow_pos_nonneg; lia).
    assert (Hhalf : 0 < half) by (apply Z.pow_pos_nonneg; lia).
    assert (Hrem : 0 <= rem < 2 ^ K) by (apply Z.mod_pos_bound; lia).
    assert (Hp1 : 2 ^ (K + 1) = 2 ^ K * 2) by (rewrite Z.pow_add_r by lia; reflexivity).
    assert (Hrem' : z mod 2 ^ (K + 1) = rem + 2 ^ K * (q mod 2)).
    { rewrite Hp1. apply Z.rem_mul_r; lia. }
    assert (Hq2 : 0 <= q mod 2 < 2) by (apply Z.mod_pos_bound; lia).
    rewrite Hrem'. rewrite odd_mod2.
    assert (Hcase : q mod 2 = 0 \/ q mod 2 = 1) by lia.
    f_equal.
    + rewrite Hp1. rewrite <- Z.div_div by lia. reflexivity.
    + destruct Hcase as [-> | ->];
      match goal with |- _ = (_ <=? ?a) => destruct (Z.leb_spec (2 ^ K) a) end;
      try reflexivity; lia.
    + destruct Hcase as [-> | ->];
      match goal with |- _ = negb (?a =? 0) && _ =>
        destruct (Z.leb_spec half rem), (Z.eqb_spec rem 0), (Z.eqb_spec rem half),
          (Z.eqb_spec a 0), (Z.eqb_spec a (2 ^ K)) end;
      simpl; try reflexivity; lia.
Qed.


Lemma RNE_after z k :
  round_nearest_even (shr_m (shr_after z (S k)))
    (loc_of_shr_record (shr_after z (S k)))
  = z / 2 ^ Z.of_nat (S k) + Z.b2z (rnd_up z (Z.of_nat (S k))).
Proof.
  unfold shr_after, rnd_up. cbv zeta.
  replace (Z.of_nat (S k) - 1) with (Z.of_nat k) by lia.
  set (K := Z.of_nat (S k)). set (q := z / 2 ^ K). set (rem := z mod 2 ^ K).
  set (half := 2 ^ Z.of_nat k).
  assert (Hhalf : 0 < half) by (apply Z.pow_pos_nonneg; lia).
  simpl shr_m. unfold loc_of_shr_record, round_nearest_even.
  rewrite <- Z.negb_odd.
  destruct (Z.leb_spec half rem), (Z.eqb_spec rem 0), (Z.eqb_spec rem half),
    (Z.ltb_spec half rem), (Z.odd q); simpl; lia.
Qed.


Lemma fexp_spec x : fexp prec emax x = Z.max (x - 53) emin.
Proof. reflexivity. Qed.

Lemma shr_exact_spec z e n :
  0 <= z ->
  shr (Build_shr_record z false false) e n
  = if n <=? 0 then (Build_shr_record z false false, e)
    else (shr_after z (Z.to_nat n), e + n).
Proof.
  intros Hz. destruct n as [|p|p]; try reflexivity.
  unfold shr. rewrite iter_pos_nat, shr_iter by exact Hz. reflexivity.
Qed.

Lemma shr_fexp_exact m e :
  emin <= e ->
  shr_fexp prec emax (Zpos m) e loc_Exact
  = if Zpos (digits2_pos m) <=? 53
    then (Build_shr_record (Zpos m) false false, e)
    else (shr_after (Zpos m) (Z.to_nat (Zpos (digits2_pos m) - 53)),
          e + (Zpos (digits2_pos m) - 53)).
Proof.
  intros He. unfold shr_fexp. simpl shr_record_of_loc. simpl Zdigits2.
  rewrite shr_exact_spec by lia. rewrite fexp_spec.
  set (D := Zpos (digits2_pos m)).
  destruct (Z.leb_spec D 53).
  - destruct (Z.leb_spec (Z.max (D + e - 53) emin - e) 0); [reflexivity|lia].
  - destruct (Z.leb_spec (Z.max (D + e - 53) emin - e) 0); [lia|].
    replace (Z.max (D + e - 53) emin - e) with (D - 53) by lia. reflexivity.
Qed.


Lemma digits2_pos_log2 p : Zpos (digits2_pos p) = Z.log2 (Zpos p) + 1.
Proof.
  apply digits2_pos_unique; [|pose proof (Z.log2_nonneg (Zpos p)); lia].
  replace (Z.log2 (Zpos p) + 1 - 1) with (Z.log2 (Zpos p)) by lia.
  replace (Z.log2 (Zpos p) + 1) with (Z.succ (Z.log2 (Zpos p))) by lia.
  apply Z.log2_spec. lia.
Qed.

Lemma rnd_up_quot_bounds z n :
  0 < n -> 0 < z -> Z.log2 z + 1 - 53 = n ->
  2 ^ 52 <= z / 2 ^ n + Z.b2z (rnd_up z n) <= 2 ^ 53.
Proof.
  intros Hn Hz Hl.
  destruct (Z.log2_spec z Hz) as [H1 H2].
  replace (Z.succ (Z.log2 z)) with (53 + n) in H2 by lia.
  replace (Z.log2 z) with (52 + n) in H1 by lia.
  rewrite Z.pow_add_r in H1, H2 by lia.
  assert (Hp : 0 < 2 ^ n) by (apply Z.pow_pos_nonneg; lia).
  assert (Hq1 : 2 ^ 52 <= z / 2 ^ n).
  { apply Z.div_le_lower_bound; lia. }
  assert (Hq2 : z / 2 ^ n < 2 ^ 53).
  { apply Z.div_lt_upper_bound; lia. }
  destruct (rnd_up z n); simpl; lia.
Qed.

(** Rounding an exact positive mantissa at an exponent above [emin]: the
    result is positive, and its value is [rnd53] of the mantissa. *)
Lemma binary_round_aux_exact m e :
  emin <= e ->
  exists M E,
    binary_round_aux prec emax false (Zpos m) e loc_Exact
    = (if E <=? 971 then S754_finite false M E else S754_infinity false) /\
    e <= E <= e + Z.max 0 (Z.log2 (Zpos m) + 1 - 53) + 1 /\
    Zpos M * 2 ^ (E - e) = rnd53 (Zpos m).
Proof.
  intros He. unfold binary_round_aux. rewrite shr_fexp_exact by exact He.
  unfold rnd53. rewrite <- digits2_pos_log2.
  set (D := Zpos (digits2_pos m)).
  destruct (Z.leb_spec D 53) as [HD|HD].
  - destruct (Z.leb_spec (D - 53) 0); [|lia].
    simpl shr_m. simpl loc_of_shr_record. simpl round_nearest_even.
    rewrite shr_fexp_exact by exact He. fold D.
    destruct (Z.leb_spec D 53); [|lia]. simpl shr_m.
    exists m, e. split; [reflexivity|]. split; [lia|].
    rewrite Z.sub_diag. simpl. lia.
  - destruct (Z.leb_spec (D - 53) 0); [lia|].
    set (n := D - 53) in *.
    destruct (Z.to_nat n) as [|k] eqn:Hk; [lia|].
    rewrite RNE_after. rewrite <- Hk. rewrite Z2Nat.id by lia.
    pose proof (rnd_up_quot_bounds (Zpos m) n ltac:(lia) ltac:(lia)) as Hb.
    rewrite <- digits2_pos_log2 in Hb. specialize (Hb eq_refl).
    set (m1 := Zpos m / 2 ^ n + Z.b2z (rnd_up (Zpos m) n)) in *.
    destruct m1 as [|m1'|m1'] eqn:Hm1; try lia.
    assert (He1 : emin <= e + n) by lia.
    rewrite shr_fexp_exact by exact He1.
    destruct (Z.eq_dec (Zpos m1') (2 ^ 53)) as [Heq|Hne].
    + injection Heq as ->.
      exists (2 ^ 52)%positive, (e + n + 1). split; [reflexivity|].
      split; [lia|].
      replace (e + n + 1 - e) with (n + 1) by lia.
      rewrite Z.pow_add_r by lia. change (2 ^ 1) with 2.
      change (Zpos (2 ^ 52)) with (2 ^ 52). change (2 ^ 53) with (2 ^ 52 * 2).
      lia.
    + assert (Hd1 : Zpos (digits2_pos m1') = 53).
      { apply digits2_pos_unique; [|lia]. change (53 - 1) with 52. lia. }
      rewrite Hd1. simpl (53 <=? 53). cbv iota. simpl shr_m.
      exists m1', (e + n). split; [reflexivity|]. split; [lia|].
      replace (e + n - e) with n by lia. reflexivity.
Qed.

Lemma pos_iter_xO m d : Zpos (Pos.iter xO m d) = Zpos m * 2 ^ Zpos d.
Proof.
  induction d as [|d IH] using Pos.peano_ind.
  - simpl. lia.
  - rewrite Pos.iter_succ, Pos2Z.inj_succ, Z.pow_succ_r by lia.
    rewrite Pos2Z.inj_xO, IH. lia.
Qed.

Lemma rnd53_small z : 0 < z -> Z.log2 z + 1 <= 53 -> rnd53 z = z.
Proof.
  intros Hz Hl. unfold rnd53.
  destruct (Z.leb_spec (Z.log2 z + 1 - 53) 0); [reflexivity|lia].
Qed.

Lemma binary_round_exact m e :
  emin <= e ->
  exists M E,
    binary_round prec emax false m e
    = (if E <=? 971 then S754_finite false M E else S754_infinity false) /\
    emin <= E <= e + Z.max 0 (Z.log2 (Zpos m) + 1 - 53) + 1 /\
    Zpos M * 2 ^ (E - emin) = rnd53 (Zpos m) * 2 ^ (e - emin).
Proof.
  intros He. unfold binary_round, shl_align. rewrite fexp_spec.
  pose proof (digits2_pos_log2 m) as HD.
  set (D := Zpos (digits2_pos m)) in *.
  destruct (Z.max (D + e - 53) emin - e) as [|d|d] eqn:Hd.
  1,2: destruct (binary_round_aux_exact m e He) as (M & E & Hr & HE & Hv);
       exists M, E; split; [exact Hr|]; split; [lia|];
       replace (E - emin) with ((E - e) + (e - emin)) by lia;
       rewrite Z.pow_add_r by lia; rewrite Z.mul_assoc, Hv; reflexivity.
  set (ez := Z.max (D + e - 53) emin) in *.
  assert (Hez : emin <= ez) by lia.
  destruct (binary_round_aux_exact (Pos.iter xO m d) ez Hez)
    as (M & E & Hr & HE & Hv).
  assert (Hlog : Z.log2 (Zpos (Pos.iter xO m d)) = Z.log2 (Zpos m) + Zpos d).
  { rewrite pos_iter_xO. rewrite <- Z.shiftl_mul_pow2 by lia.
    apply Z.log2_shiftl; lia. }
  rewrite Hlog in HE.
  rewrite rnd53_small in Hv by (rewrite ?Hlog; lia).
  rewrite pos_iter_xO in Hv.
  exists M, E. split; [exact Hr|]. split; [lia|].
  rewrite rnd53_small by lia.
  replace (E - emin) with ((E - ez) + (ez - emin)) by lia.
  rewrite Z.pow_add_r by lia. rewrite Z.mul_assoc, Hv.
  replace (e - emin) with (Zpos d + (ez - emin)) by lia.
  rewrite Z.pow_add_r by lia. lia.
Qed.

(** [float64(z)] for [0 < z < 2^63] is a positive number of value
    [rnd53 z]. *)
Lemma binary_normalize_int z :
  0 < z < 2 ^ 63 ->
  exists M E,
    binary_normalize prec emax z 0 false = S754_finite false M E /\
    emin <= E /\
    Zpos M * 2 ^ (E - emin) = rnd53 z * 2 ^ (0 - emin).
Proof.
  intros [Hz1 Hz2]. destruct z as [|m|m]; try lia.
  destruct (binary_round_exact m 0 ltac:(lia)) as (M & E & Hr & HE & Hv).
  assert (Hl : Z.log2 (Zpos m) < 63) by (apply Z.log2_lt_pow2; lia).
  exists M, E. simpl binary_normalize. rewrite Hr.
  destruct (Z.leb_spec E 971); [|lia]. split; [reflexivity|]. split; [lia|].
  exact Hv.
Qed.

Lemma rnd_up_mono q n r1 r2 :
  0 < n -> 0 <= r1 <= r2 -> r2 < 2 ^ n ->
  Z.b2z (rnd_up (q * 2 ^ n + r1) n) <= Z.b2z (rnd_up (q * 2 ^ n + r2) n).
Proof.
  intros Hn Hr Hr2. unfold rnd_up.
  assert (Hp : 0 < 2 ^ n) by (apply Z.pow_pos_nonneg; lia).
  rewrite !(Z.add_comm (q * 2 ^ n)), !Z.mod_add, !Z.div_add by lia.
  rewrite !Z.mod_small, !Z.div_small by lia. rewrite !Z.add_0_l.
  destruct (Z.ltb_spec (2 ^ (n - 1)) r1), (Z.ltb_spec (2 ^ (n - 1)) r2),
    (Z.eqb_spec r1 (2 ^ (n - 1))), (Z.eqb_spec r2 (2 ^ (n - 1))), (Z.odd q);
    simpl; lia.
Qed.

Lemma rnd53_mono z1 z2 : 0 < z1 <= z2 -> rnd53 z1 <= rnd53 z2.
Proof.
  intros [Hz1 Hz].
  assert (Hz2 : 0 < z2) by lia.
  pose proof (Z.log2_le_mono z1 z2 Hz) as Hlog.
  destruct (Z.log2_spec z1 Hz1) as [Ha1 Ha2].
  destruct (Z.log2_spec z2 Hz2) as [Hb1 Hb2].
  unfold rnd53.
  set (n1 := Z.log2 z1 + 1 - 53) in *. set (n2 := Z.log2 z2 + 1 - 53) in *.
  destruct (Z.leb_spec n1 0) as [H1|H1], (Z.leb_spec n2 0) as [H2|H2];
    try lia.
  - (* z1 exact, z2 rounded *)
    pose proof (rnd_up_quot_bounds z2 n2 H2 Hz2 eq_refl) as Hq.
    assert (2 ^ Z.succ (Z.log2 z1) <= 2 ^ 53) by (apply Z.pow_le_mono_r; lia).
    assert (2 ^ 1 <= 2 ^ n2) by (apply Z.pow_le_mono_r; lia).
    change (2 ^ 1) with 2 in *. change (2 ^ 53) with (2 ^ 52 * 2) in *. nia.
  - pose proof (rnd_up_quot_bounds z1 n1 H1 Hz1 eq_refl) as Hq1.
    pose proof (rnd_up_quot_bounds z2 n2 H2 Hz2 eq_refl) as Hq2.
    assert (Hp1 : 0 < 2 ^ n1) by (apply Z.pow_pos_nonneg; lia).
    destruct (Z.eq_dec n1 n2) as [Heq|Hne].
    + rewrite <- Heq in *. clear Hq2.
      pose proof (Z.div_mod z1 (2 ^ n1) ltac:(lia)) as Hd1.
      pose proof (Z.div_mod z2 (2 ^ n1) ltac:(lia)) as Hd2.
      pose proof (Z.mod_pos_bound z1 (2 ^ n1) Hp1) as Hm1.
      pose proof (Z.mod_pos_bound z2 (2 ^ n1) Hp1) as Hm2.
      pose proof (Z.div_le_mono z1 z2 (2 ^ n1) Hp1 Hz) as Hqq.
      destruct (Z.eq_dec (z1 / 2 ^ n1) (z2 / 2 ^ n1)) as [Hq|Hq].
      * assert (Hr : z1 mod 2 ^ n1 <= z2 mod 2 ^ n1) by nia.
        pose proof (rnd_up_mono (z1 / 2 ^ n1) n1 _ _ H1
                      (conj (proj1 Hm1) Hr) (proj2 Hm2)) as Hup.
        rewrite Hq in Hup at 2.
        replace (z1 / 2 ^ n1 * 2 ^ n1 + z1 mod 2 ^ n1) with z1 in Hup by lia.
        replace (z2 / 2 ^ n1 * 2 ^ n1 + z2 mod 2 ^ n1) with z2 in Hup by lia.
        rewrite Hq. nia.
      * assert (z1 / 2 ^ n1 + 1 <= z2 / 2 ^ n1) by lia.
        destruct (rnd_up z1 n1), (rnd_up z2 n1); simpl; nia.
    + assert (Hlt : n1 + 1 <= n2) by lia.
      assert (2 ^ (n1 + 1) <= 2 ^ n2) by (apply Z.pow_le_mono_r; lia).
      rewrite Z.pow_add_r in * by lia. change (2 ^ 1) with 2 in *.
      change (2 ^ 53) with (2 ^ 52 * 2) in *. nia.
Qed.

(** ** Order of canonical positive numbers *)

Lemma canonical_bounds m e :
  canonical_mantissa prec emax m e = true ->
  emin <= e /\ Zpos m < 2 ^ 53 /\ (emin < e -> 2 ^ 52 <= Zpos m).
Proof.
  unfold canonical_mantissa. rewrite fexp_spec. intros H%Z.eqb_eq.
  pose proof (digits2_pos_bounds m) as [H1 H2].
  set (D := Zpos (digits2_pos m)) in *.
  assert (HD : 0 < D) by (subst D; lia).
  split; [lia|]. split.
  - assert (2 ^ D <= 2 ^ 53) by (apply Z.pow_le_mono_r; lia). lia.
  - intros He. assert (D = 53) by lia.
    replace (D - 1) with 52 in H1 by lia. exact H1.
Qed.

Lemma valid_finite s m e :
  valid_binary (S754_finite s m e) = true ->
  canonical_mantissa prec emax m e = true.
Proof. simpl. unfold bounded. intros H%andb_true_iff. apply H. Qed.

Lemma SFcompare_pos_finite m1 e1 m2 e2 :
  canonical_mantissa prec emax m1 e1 = true ->
  canonical_mantissa prec emax m2 e2 = true ->
  SFcompare (S754_finite false m1 e1) (S754_finite false m2 e2)
  = Some (Zpos m1 * 2 ^ (e1 - emin) ?= Zpos m2 * 2 ^ (e2 - emin)).
Proof.
  intros (He1 & Hm1 & Hn1)%canonical_bounds (He2 & Hm2 & Hn2)%canonical_bounds.
  unfold SFcompare. f_equal.
  assert (Hp1 : 0 < 2 ^ (e1 - emin)) by (apply Z.pow_pos_nonneg; lia).
  assert (Hp2 : 0 < 2 ^ (e2 - emin)) by (apply Z.pow_pos_nonneg; lia).
  destruct (Z.compare_spec e1 e2) as [Heq|Hlt|Hgt].
  - subst e2. change (Pos.compare_cont Eq m1 m2) with (Zpos m1 ?= Zpos m2).
    set (c := 2 ^ (e1 - emin)) in *.
    destruct (Z.compare_spec (Zpos m1) (Zpos m2)) as [H|H|H].
    + rewrite H. symmetry. apply Z.compare_refl.
    + symmetry. apply Z.compare_lt_iff. apply Z.mul_lt_mono_pos_r; assumption.
    + symmetry. apply Z.compare_gt_iff. apply Z.mul_lt_mono_pos_r; assumption.
  - symmetry. apply Z.compare_lt_iff.
    replace (e2 - emin) with ((e2 - e1) + (e1 - emin)) by lia.
    rewrite Z.pow_add_r by lia.
    assert (2 ^ 1 <= 2 ^ (e2 - e1)) by (apply Z.pow_le_mono_r; lia).
    change (2 ^ 1) with 2 in *. specialize (Hn2 ltac:(lia)).
    change (2 ^ 53) with (2 ^ 52 * 2) in *.
    rewrite Z.mul_assoc. apply Z.mul_lt_mono_pos_r; [exact Hp1|]. nia.
  - symmetry. apply Z.compare_gt_iff.
    replace (e1 - emin) with ((e1 - e2) + (e2 - emin)) by lia.
    rewrite Z.pow_add_r by lia.
    assert (2 ^ 1 <= 2 ^ (e1 - e2)) by (apply Z.pow_le_mono_r; lia).
    change (2 ^ 1) with 2 in *. specialize (Hn1 ltac:(lia)).
    change (2 ^ 53) with (2 ^ 52 * 2) in *.
    rewrite Z.mul_assoc. apply Z.mul_lt_mono_pos_r; [exact Hp2|]. nia.
Qed.


Lemma SFleb_ltb_trans a b c :
  nonneg_finite a -> nonneg_finite b ->
  SFleb a b = true -> SFltb b c = true -> SFltb a c = true.
Proof.
  unfold SFleb, SFltb.
  destruct a as [[|]| | |[|] ma ea], b as [[|]| | |[|] mb eb]; simpl;
    try contradiction; intros _ _;
    destruct c as [[|]|[|]| |[|] mc ec]; simpl; try discriminate;
    try reflexivity.
  destruct (Z.compare_spec ea eb), (Z.compare_spec eb ec),
    (Z.compare_spec ea ec); try discriminate; try reflexivity; try lia;
    subst;
    change (Pos.compare_cont Eq ma mb) with (Pos.compare ma mb);
    change (Pos.compare_cont Eq mb mc) with (Pos.compare mb mc);
    change (Pos.compare_cont Eq ma mc) with (Pos.compare ma mc);
    destruct (Pos.compare_spec ma mb), (Pos.compare_spec mb mc),
      (Pos.compare_spec ma mc); try discriminate; try reflexivity; lia.
Qed.

(** ** Subtraction of a smaller non-negative number *)

Lemma shl_align_value mx ex ez :
  ez <= ex -> Zpos (fst (shl_align mx ex ez)) = Zpos mx * 2 ^ (ex - ez).
Proof.
  intros H. unfold shl_align.
  destruct (ez - ex) as [|d|d] eqn:Hd; simpl fst; try lia.
  - replace (ex - ez) with 0 by lia. simpl. lia.
  - rewrite pos_iter_xO. f_equal. f_equal. lia.
Qed.

Lemma binary_normalize_pos q e :
  emin <= e ->
  SFltb (S754_zero false) (binary_normalize prec emax (Zpos q) e false) = true.
Proof.
  intros He. simpl binary_normalize.
  destruct (binary_round_exact q e He) as (M & E & -> & _).
  destruct (E <=? 971); reflexivity.
Qed.

Lemma SFsub_pos x y :
  valid_binary x = true -> valid_binary y = true -> nonneg_finite y ->
  SFltb y x = true ->
  SFltb (S754_zero false) (SFsub prec emax x y) = true.
Proof.
  intros Hx Hy Hny Hlt.
  destruct y as [[|]| | |[|] my ey]; try contradiction;
    destruct x as [[|]|[|]| |[|] mx ex]; try discriminate Hlt; try reflexivity.
  apply valid_finite in Hx, Hy.
  unfold SFltb in Hlt. rewrite (SFcompare_pos_finite _ _ _ _ Hy Hx) in Hlt.
  destruct (Z.compare_spec (Zpos my * 2 ^ (ey - emin)) (Zpos mx * 2 ^ (ex - emin)))
    as [|Hv|]; try discriminate.
  destruct (canonical_bounds _ _ Hx) as (Hex & _).
  destruct (canonical_bounds _ _ Hy) as (Hey & _).
  unfold SFsub, cond_Zopp.
  set (ez := Z.min ex ey).
  rewrite !shl_align_value by lia.
  assert (Hpos : 0 < Zpos mx * 2 ^ (ex - ez) - Zpos my * 2 ^ (ey - ez)).
  { assert (Hc : 0 < 2 ^ (ez - emin)) by (apply Z.pow_pos_nonneg; lia).
    replace (ex - emin) with ((ex - ez) + (ez - emin)) in Hv by lia.
    replace (ey - emin) with ((ey - ez) + (ez - emin)) in Hv by lia.
    rewrite !Z.pow_add_r in Hv by lia. nia. }
  destruct (Zpos mx * 2 ^ (ex - ez) - Zpos my * 2 ^ (ey - ez)) as [|q|q];
    try lia.
  apply binary_normalize_pos. lia.
Qed.

(** ** [float64] of a Go [int] *)


Lemma SFcompare_antisym x y c :
  SFcompare x y = Some c -> SFcompare y x = Some (CompOpp c).
Proof.
  destruct x as [sx|sx| |sx mx ex], y as [sy|sy| |sy my ey]; simpl;
    try discriminate; intros [= <-]; f_equal;
    try (destruct sx; reflexivity); try (destruct sy; reflexivity);
    try (destruct sx, sy; reflexivity).
  destruct sx, sy; try reflexivity;
    rewrite (Z.compare_antisym ex ey); destruct (ex ?= ey)%Z; simpl;
    try reflexivity;
    change (Pos.compare_cont Eq my mx) with (Pos.compare my mx);
    change (Pos.compare_cont Eq mx my) with (Pos.compare mx my);
    rewrite (Pos.compare_antisym mx my);
    destruct (Pos.compare mx my); reflexivity.
Qed.

Lemma ltb_leb_false (a b : float) :
  (b <? a)%float = true -> (a <=? b)%float = false.
Proof.
  rewrite FloatAxioms.ltb_spec, FloatAxioms.leb_spec. unfold SFltb, SFleb.
  destruct (SFcompare (Prim2SF b) (Prim2SF a)) as [c|] eqn:E; try discriminate.
  rewrite (SFcompare_antisym _ _ _ E). destruct c; simpl; congruence.
Qed.

Lemma Prim2SF_nan f : is_nan f = true -> Prim2SF f = S754_nan.
Proof. intros H. unfold Prim2SF. rewrite H. reflexivity. Qed.

Lemma Prim2SF_not_nan f : is_nan f = false -> Prim2SF f <> S754_nan.
Proof.
  intros H. unfold Prim2SF. rewrite H.
  destruct (PrimFloat.is_zero f); [discriminate|].
  destruct (PrimFloat.is_infinity f); [discriminate|].
  destruct (FloatOps.Z.frexp f) as [r e].
  destruct (shr_fexp _ _ _ _ _) as [mrs e'].
  destruct (shr_m mrs); discriminate.
Qed.

Lemma Prim2SF_of_int z :
  0 <= z < 2 ^ 63 ->
  Prim2SF (float64_of_int z) = binary_normalize prec emax z 0 false.
Proof.
  intros Hz. unfold float64_of_int. destruct (Z.ltb_spec z 0); [lia|].
  rewrite FloatAxioms.of_uint63_spec. f_equal. rewrite Uint63.of_Z_spec.
  apply Z.mod_small. exact Hz.
Qed.

Lemma of_int_shape z :
  0 <= z < 2 ^ 63 ->
  Prim2SF (float64_of_int z) = S754_zero false /\ z = 0 \/
  exists M E, Prim2SF (float64_of_int z) = S754_finite false M E /\
    canonical_mantissa prec emax M E = true /\
    Zpos M * 2 ^ (E - emin) = rnd53 z * 2 ^ (0 - emin) /\ 0 < z.
Proof.
  intros Hz. pose proof (Prim2SF_valid (float64_of_int z)) as Hv.
  rewrite (Prim2SF_of_int z Hz) in *.
  destruct (Z.eq_dec z 0) as [->|Hne]; [left; split; reflexivity|].
  right. destruct (binary_normalize_int z ltac:(lia)) as (M & E & Hr & HE & Hval).
  rewrite Hr in *. exists M, E. split; [reflexivity|].
  split; [apply (valid_finite false); exact Hv|]. split; [exact Hval|lia].
Qed.

Lemma of_int_nonneg z :
  0 <= z < 2 ^ 63 -> nonneg_finite (Prim2SF (float64_of_int z)).
Proof.
  intros Hz. destruct (of_int_shape z Hz) as [[-> _]|(M & E & -> & _)]; exact I.
Qed.

Lemma of_int_mono i j :
  0 <= i <= j -> j < 2 ^ 63 ->
  SFleb (Prim2SF (float64_of_int i)) (Prim2SF (float64_of_int j)) = true.
Proof.
  intros Hij Hj.
  destruct (of_int_shape i ltac:(lia)) as [[-> Hi]|(Mi & Ei & -> & Hci & Hvi & Hi)];
    destruct (of_int_shape j ltac:(lia)) as [[-> Hj0]|(Mj & Ej & -> & Hcj & Hvj & Hj0)];
    try reflexivity; try lia.
  unfold SFleb. rewrite (SFcompare_pos_finite _ _ _ _ Hci Hcj).
  rewrite Hvi, Hvj.
  pose proof (rnd53_mono i j ltac:(lia)) as Hm.
  assert (Hc : 0 < 2 ^ (0 - emin)) by (apply Z.pow_pos_nonneg; lia).
  destruct (Z.compare_spec (rnd53 i * 2 ^ (0 - emin)) (rnd53 j * 2 ^ (0 - emin)));
    try reflexivity. nia.
Qed.

(** The chi-squared parameter [nu - float64(i)] of row [i], for [nu] that
    passed the test of [NewWishart] against [float64(d-1)]. *)
Lemma chi_dof_positive (nu : float) (d i : Z) :
  0 <= i <= d - 1 -> d - 1 < 2 ^ 63 ->
  (nu <=? float64_of_int (d - 1))%float = false ->
  (nu - float64_of_int i <=? 0)%float = false /\
  (is_nan nu = false -> (0 <? nu - float64_of_int i)%float = true).
Proof.
  intros Hi Hd Hle.
  assert (Hpos : is_nan nu = false ->
                 (0 <? nu - float64_of_int i)%float = true).
  { intros Hnan. apply Prim2SF_not_nan in Hnan.
    rewrite FloatAxioms.leb_spec in Hle. rewrite FloatAxioms.ltb_spec, FloatAxioms.sub_spec.
    pose proof (of_int_nonneg (d - 1) ltac:(lia)) as Hb.
    pose proof (of_int_nonneg i ltac:(lia)) as Ha.
    pose proof (of_int_mono i (d - 1) ltac:(lia) Hd) as Hab.
    set (a := Prim2SF (float64_of_int i)) in *.
    set (b := Prim2SF (float64_of_int (d - 1))) in *.
    set (c := Prim2SF nu) in *.
    assert (Hbc : SFltb b c = true).
    { unfold SFltb, SFleb in *.
      destruct (SFcompare c b) as [cmp|] eqn:E.
      - rewrite (SFcompare_antisym _ _ _ E). destruct cmp; try discriminate.
        reflexivity.
      - destruct c, b; simpl in *; try contradiction; try discriminate;
          congruence. }
    pose proof (SFleb_ltb_trans a b c Ha Hb Hab Hbc) as Hac.
    change (Prim2SF 0) with (S754_zero false).
    apply SFsub_pos; [apply Prim2SF_valid|apply Prim2SF_valid|exact Ha|exact Hac]. }
  split; [|exact Hpos].
  destruct (is_nan nu) eqn:Hnan.
  - rewrite FloatAxioms.leb_spec, FloatAxioms.sub_spec, (Prim2SF_nan nu Hnan). reflexivity.
  - apply ltb_leb_false. apply Hpos. reflexivity.
Qed.

End F64.

(** ** Buffers by address *)

Lemma heap_lookup_insert {A} (h : gmap loc A) (l : loc) (x : A) :
  <[l := x]> h !! l = Some x.
Proof. apply lookup_insert_eq. Qed.

Lemma heap_fresh {A} (h : gmap loc A) : h !! fresh (dom h) = None.
Proof. apply not_elem_of_dom. apply is_fresh. Qed.

(** ** Containers *)

Lemma length_zeros n : length (zeros n) = n.
Proof. apply length_replicate. Qed.

Lemma square_zeros n : square n (zeros n).
Proof.
  split; [apply length_zeros|]. apply Forall_forall. intros row Hin.
  apply elem_of_replicate in Hin as [-> _]. apply length_replicate.
Qed.

Lemma square_at n m i j :
  square n m -> (i < n)%nat -> (j < n)%nat ->
  exists row x, m !! i = Some row /\ length row = n /\ row !! j = Some x /\
                rows_at m i j = Some x.
Proof.
  intros [Hl Hrows] Hi Hj.
  destruct (lookup_lt_is_Some_2 m i) as [row Hrow]; [lia|].
  assert (Hlen : length row = n).
  { eapply (proj1 (Forall_lookup _ _) Hrows); eauto. }
  destruct (lookup_lt_is_Some_2 row j) as [x Hx]; [lia|].
  exists row, x. unfold rows_at. rewrite Hrow. simpl. auto.
Qed.

Lemma Symmetric_NewSymDense n : 0 <= n -> Symmetric (NewSymDense n) = n.
Proof.
  intros Hn. unfold Symmetric, NewSymDense. simpl. rewrite length_zeros. lia.
Qed.

Lemma Symmetric_CopySym s a : Symmetric (CopySym s a) = Symmetric s.
Proof. unfold Symmetric, CopySym. simpl. rewrite length_imap. reflexivity. Qed.

Lemma Symmetric_ScaleSym f a : Symmetric (ScaleSym f a) = Symmetric a.
Proof. unfold Symmetric, ScaleSym. simpl. rewrite length_map. reflexivity. Qed.

Lemma ScaleSym_at f a i j :
  SymAt (ScaleSym f a) i j = PrimFloat.mul f <$> SymAt a i j.
Proof.
  unfold SymAt, ScaleSym, rows_at. simpl.
  change (map (map (PrimFloat.mul f)) (sym_rows a))
    with (fmap (M:=list) (fmap (M:=list) (PrimFloat.mul f)) (sym_rows a)).
  rewrite list_lookup_fmap. destruct (sym_rows a !! i) as [row|]; simpl; [|done].
  apply list_lookup_fmap.
Qed.

(** Copying a well-formed [a] into a receiver of the same order gives the
    entries of [a]. *)
Lemma CopySym_at s a n i j :
  length (sym_rows s) = n -> square n (sym_rows a) ->
  (i < n)%nat -> (j < n)%nat ->
  SymAt (CopySym s a) i j = SymAt a i j.
Proof.
  intros Hs Ha Hi Hj.
  destruct (square_at _ _ _ _ Ha Hi Hj) as (row & x & Hrow & Hlen & Hx & Hat).
  destruct Ha as [Hla _].
  unfold SymAt at 2. rewrite Hat.
  unfold SymAt, CopySym, rows_at. simpl.
  rewrite list_lookup_imap.
  destruct (lookup_lt_is_Some_2 (sym_rows s) i) as [srow Hsrow]; [lia|].
  rewrite Hsrow. simpl. rewrite Hla, Hs, Nat.min_id.
  destruct (decide (i < n)%nat); [|lia].
  rewrite Hrow. simpl. rewrite lookup_app_l by (rewrite length_take; lia).
  rewrite lookup_take_lt by lia. exact Hx.
Qed.

(** On square matrices of one order, [CopySym] is the copy. *)
Lemma CopySym_square s a n :
  square n (sym_rows s) -> square n (sym_rows a) -> CopySym s a = a.
Proof.
  intros [Hs Hsr] [Ha Har]. destruct a as [ar]. unfold CopySym. simpl in *.
  f_equal. apply list_eq. intros i. rewrite list_lookup_imap.
  rewrite Ha, Hs, Nat.min_id.
  destruct (sym_rows s !! i) as [srow|] eqn:Hsrow; simpl.
  - pose proof (lookup_lt_Some _ _ _ Hsrow) as Hi.
    destruct (decide (i < n)%nat); [|lia].
    destruct (lookup_lt_is_Some_2 ar i) as [row Hrow]; [lia|].
    rewrite Hrow. simpl.
    assert (length row = n) by (eapply (proj1 (Forall_lookup _ _) Har); eauto).
    assert (length srow = n) by (eapply (proj1 (Forall_lookup _ _) Hsr); eauto).
    rewrite take_ge by lia. rewrite drop_ge by lia. rewrite app_nil_r. done.
  - apply lookup_ge_None in Hsrow. symmetry. apply lookup_ge_None. lia.
Qed.

Section Properties.
Context `{C : Collaborators} `{P : PackageConsts}.

Ltac run :=
  unfold MeanSym, ProbSym, LogProbSym, LogProbSymChol, logProbSymChol, setV,
    new_sym, load_sym, store_sym, new_chol, load_chol, store_chol,
    set_wish, set_syms, set_chols, draw, bind, ret, gets, panic, modify, lift;
  simpl.

(** ** Construction *)

(** C4.  [NewWishart] panics when [nu <= float64(dim-1)], whatever the
    factorisation of [V] would give; otherwise it returns [(nil, false)]
    when the factorisation fails, and on success, with a factorisation the
    first call on it accepts, the distribution holding [nu], [dim], the
    factor, its log-determinant and the upper factor, with the dense cache
    still empty.  [nu > float64(dim-1)] is one way for the first test to
    fail.  A factorisation that succeeds and is not valid (the matrix of
    order zero) makes [UFromCholesky] panic: no distribution is built. *)
Theorem NewWishart_cases (vm : SymDense) (nu0 : float64) (src0 : Rand) :
  let d := Symmetric vm in
  let chol := (Factorize vm).1 in
  ((nu0 <=? float64_of_int (d - 1))%float = true ->
     NewWishart vm nu0 src0
     = Panic "wishart: nu must be greater than dim-1") /\
  ((float64_of_int (d - 1) <? nu0)%float = true ->
     (nu0 <=? float64_of_int (d - 1))%float = false) /\
  ((nu0 <=? float64_of_int (d - 1))%float = false ->
     (Factorize vm).2 = false ->
     NewWishart vm nu0 src0 = Ok (None, false)) /\
  ((nu0 <=? float64_of_int (d - 1))%float = false ->
     (Factorize vm).2 = true ->
     Valid chol = true ->
     NewWishart vm nu0 src0
     = Ok (Some {| nu := nu0; src := src0; dim := d; cholv := chol;
                   logdetv := LogDet chol; upper := UFromCholesky chol;
                   once := false; v := None |}, true)) /\
  ((nu0 <=? float64_of_int (d - 1))%float = false ->
     (Factorize vm).2 = true ->
     Valid chol = false ->
     NewWishart vm nu0 src0 = Panic badCholesky).
Proof.
  intros d chol. subst d chol. unfold NewWishart.
  repeat split.
  - intros ->. reflexivity.
  - apply F64.ltb_leb_false.
  - intros -> Hok. destruct (Factorize vm) as [c ok]. simpl in *. subst ok.
    reflexivity.
  - intros -> Hok Hv. destruct (Factorize vm) as [c ok]. simpl in *. subst ok.
    rewrite Hv. reflexivity.
  - intros -> Hok Hv. destruct (Factorize vm) as [c ok]. simpl in *. subst ok.
    rewrite Hv. reflexivity.
Qed.

(** What [constructed] says about the fields. *)
Lemma constructed_fields vm nu0 src0 w :
  constructed vm nu0 src0 w ->
  (nu0 <=? float64_of_int (Symmetric vm - 1))%float = false /\
  (Factorize vm).2 = true /\ Valid (Factorize vm).1 = true /\
  w = {| nu := nu0; src := src0; dim := Symmetric vm;
         cholv := (Factorize vm).1;
         logdetv := LogDet (Factorize vm).1;
         upper := UFromCholesky (Factorize vm).1;
         once := false; v := None |}.
Proof.
  unfold constructed, NewWishart.
  destruct (nu0 <=? _)%float; [discriminate|].
  destruct (Factorize vm) as [c ok]. destruct ok; simpl; [|discriminate].
  destruct (Valid c); simpl; [|discriminate].
  intros [= <-]. auto.
Qed.

(** ** The receiver across calls *)


Lemma keeps_ret {A} (a : A) : keeps_wish (ret a).
Proof. intros s. reflexivity. Qed.
Lemma keeps_panic {A} msg : keeps_wish (@panic State A msg).
Proof. intros s. reflexivity. Qed.
Lemma keeps_gets {A} (f : State -> A) : keeps_wish (gets f).
Proof. intros s. reflexivity. Qed.
Lemma keeps_lift {A} (r : Result A) : keeps_wish (lift r).
Proof. intros s. reflexivity. Qed.
Lemma keeps_set_syms f : keeps_wish (set_syms f).
Proof. intros s. reflexivity. Qed.
Lemma keeps_set_chols f : keeps_wish (set_chols f).
Proof. intros s. reflexivity. Qed.
Lemma keeps_draw f : keeps_wish (draw f).
Proof. intros s. unfold draw. destruct (f (rng s)). reflexivity. Qed.
Lemma keeps_bind {A B} (m : M A) (k : A -> M B) :
  keeps_wish m -> (forall a, keeps_wish (k a)) -> keeps_wish (bind m k).
Proof.
  intros Hm Hk s. unfold bind. specialize (Hm s).
  destruct (m s) as [[a|msg|] s1]; simpl in *; [|exact Hm|exact Hm].
  rewrite Hk. exact Hm.
Qed.
Lemma keeps_for_loop {A} (body : Z -> A -> M A) n :
  (forall i a, keeps_wish (body i a)) ->
  forall i a, keeps_wish (for_loop n i body a).
Proof.
  intros Hb. induction n as [|n IH]; intros i a; simpl.
  - apply keeps_ret.
  - apply keeps_bind; [apply Hb | intros a'; apply IH].
Qed.
Lemma keeps_match_opt {A B} (o : option A) (m : M B) (k : A -> M B) :
  keeps_wish m -> (forall a, keeps_wish (k a)) ->
  keeps_wish (match o with None => m | Some a => k a end).
Proof. destruct o; auto. Qed.

Create HintDb frame.
#[local] Hint Resolve keeps_ret keeps_panic keeps_gets keeps_lift
  keeps_set_syms keeps_set_chols keeps_draw : frame.

Ltac frame :=
  repeat first
    [ progress auto with frame
    | apply keeps_bind; [|intros ?]
    | apply keeps_for_loop; intros ? ?
    | apply keeps_match_opt; [|intros ?]
    | match goal with
      | |- keeps_wish (if ?b then _ else _) => destruct b
      | |- keeps_wish (match ?o with Some _ => _ | None => _ end) => destruct o
      | |- keeps_wish (let '(_, _) := ?p in _) => destruct p
      end ].

Lemma keeps_logProbSymChol cholX : keeps_wish (logProbSymChol cholX).
Proof. unfold logProbSymChol. frame. Qed.
#[local] Hint Resolve keeps_logProbSymChol : frame.
Lemma keeps_LogProbSym x : keeps_wish (LogProbSym x).
Proof. unfold LogProbSym. frame. Qed.
Lemma keeps_LogProbSymChol cholX : keeps_wish (LogProbSymChol cholX).
Proof. unfold LogProbSymChol. frame. Qed.
#[local] Hint Resolve keeps_LogProbSym keeps_LogProbSymChol : frame.
Lemma keeps_ProbSym x : keeps_wish (ProbSym x).
Proof. unfold ProbSym. frame. Qed.
Lemma keeps_RandChol c : keeps_wish (RandChol c).
Proof.
  unfold RandChol, for_range, new_chol, store_chol. frame.
Qed.
#[local] Hint Resolve keeps_ProbSym keeps_RandChol : frame.
Lemma keeps_RandSym x : keeps_wish (RandSym x).
Proof.
  unfold RandSym, new_sym, new_chol, load_chol, load_sym, store_sym. frame.
Qed.
#[local] Hint Resolve keeps_RandSym : frame.


Lemma setV_spec s :
  setV s = (Ok tt, if once (wish s) then s
                   else mkState (filled (wish s)) (syms s) (chols s) (rng s)).
Proof. run. destruct (once (wish s)); reflexivity. Qed.

Lemma MeanSym_wish x s :
  wish (MeanSym x s).2 = wish s \/
  once (wish s) = false /\ wish (MeanSym x s).2 = filled (wish s).
Proof.
  remember (wish (MeanSym x s).2) as W eqn:HW.
  assert (Hgen : forall l s1, wish s1 = wish s ->
    let m := (xv <- load_sym l ;;
              (if negb (Symmetric xv =? dim (wish s)) then panic badDim
               else setV ;;; w <- gets wish ;;
                    match v w with
                    | None => panic nilDeref
                    | Some wv =>
                        store_sym l (CopySym xv wv) ;;;
                        xv <- load_sym l ;;
                        store_sym l (ScaleSym (nu w) xv) ;;; ret l
                    end)) in
    forall W, W = wish (m s1).2 ->
    W = wish s \/ once (wish s) = false /\ W = filled (wish s)).
  { clear W HW. intros l s1 Hw m W HW. subst m.
    unfold bind at 1, load_sym at 1, bind at 1 in HW. simpl in HW.
    destruct (syms s1 !! l) as [xv|]; simpl in HW; [|left; congruence].
    destruct (negb _); simpl in HW; [left; congruence|].
    unfold bind at 1 in HW. rewrite setV_spec in HW. rewrite Hw in HW.
    destruct (once (wish s)) eqn:Ho.
    - left. revert HW. run. rewrite Hw.
      destruct (v (wish s)); simpl; [|congruence].
      rewrite heap_lookup_insert. simpl. congruence.
    - right. split; [reflexivity|]. revert HW. run.
      rewrite heap_lookup_insert. simpl. auto. }
  unfold MeanSym in HW. unfold bind at 1 in HW. simpl in HW.
  destruct x as [l|].
  - apply (Hgen l s); [reflexivity|]. exact HW.
  - unfold new_sym in HW. unfold bind at 1 in HW. simpl in HW.
    unfold bind at 1 in HW. simpl in HW.
    eapply Hgen; [|exact HW]. reflexivity.
Qed.

Lemma exec_other_wish (c : Call) (s : State) :
  match c with CallMeanSym _ => True | _ => wish (exec c s) = wish s end.
Proof.
  destruct c; simpl; auto.
  - apply keeps_ProbSym.
  - apply keeps_LogProbSym.
  - apply keeps_LogProbSymChol.
  - apply keeps_RandSym.
  - apply keeps_RandChol.
Qed.

Lemma exec_wish (c : Call) (s : State) :
  wish (exec c s) = wish s \/
  (exists x, c = CallMeanSym x) /\ once (wish s) = false /\
  wish (exec c s) = filled (wish s).
Proof.
  pose proof (exec_other_wish c s) as H. destruct c; auto. simpl.
  destruct (MeanSym_wish x s) as [H1|[H1 H2]]; [auto|]. right. eauto.
Qed.

(** C10.  No call changes [nu], [src], [dim], [cholv], [logdetv] or
    [upper].  A call either leaves the whole receiver as it was, or it is a
    [MeanSym] on a receiver whose [once] has not fired, and then the only
    change is the cache fill of [setV]; once [once] has fired nothing
    changes any more; every method other than [MeanSym] leaves the receiver
    unchanged. *)
Theorem receiver_frame (c : Call) (s : State) :
  let w := wish s in
  let w' := wish (exec c s) in
  (nu w' = nu w /\ src w' = src w /\ dim w' = dim w /\ cholv w' = cholv w /\
   logdetv w' = logdetv w /\ upper w' = upper w) /\
  (w' = w \/
   (exists x, c = CallMeanSym x) /\ once w = false /\ w' = filled w) /\
  (once w = true -> w' = w) /\
  match c with CallMeanSym _ => True | _ => w' = w end.
Proof.
  intros w w'. subst w w'.
  pose proof (exec_other_wish c s) as Hrest.
  pose proof (exec_wish c s) as Hcases.
  repeat split; auto.
  all: try (destruct Hcases as [->|(_ & _ & ->)]; reflexivity).
  intros Ho. destruct Hcases as [->|(_ & Hf & _)]; [reflexivity|congruence].
Qed.

(** The receiver of a reachable state is the constructed one, possibly
    with its cache filled. *)
Lemma reachable_wish w0 s :
  reachable w0 s -> wish s = w0 \/ wish s = filled w0.
Proof.
  induction 1 as [sy ch r|c s Hr IH|s sy ch r Hr IH]; simpl; auto.
  destruct (exec_wish c s) as [->|(_ & Ho & ->)]; [exact IH|].
  destruct IH as [Hw|Hw]; rewrite Hw in *; [auto|discriminate Ho].
Qed.

Lemma reachable_fields w0 s :
  reachable w0 s ->
  nu (wish s) = nu w0 /\ dim (wish s) = dim w0 /\ cholv (wish s) = cholv w0 /\
  logdetv (wish s) = logdetv w0 /\ upper (wish s) = upper w0 /\
  src (wish s) = src w0.
Proof.
  intros H. destruct (reachable_wish _ _ H) as [-> | ->]; simpl; auto 10.
Qed.

(** ** Density *)

Lemma logProbSymChol_ok cholX s y :
  SolveCholesky (cholv (wish s)) (TriT (UFromCholesky cholX)) = (y, None) ->
  logProbSymChol cholX s
  = (Ok (0.5 * ((nu (wish s) - float64_of_int (dim (wish s)) - 1) * LogDet cholX
                - Trace (Mul y (tri_rows (UFromCholesky cholX)))
                - nu (wish s) * float64_of_int (dim (wish s)) * Ln2
                - nu (wish s) * logdetv (wish s))
         - MvLgamma (0.5 * nu (wish s)) (dim (wish s)))%float, s).
Proof. intros H. run. rewrite H. reflexivity. Qed.

Lemma logProbSymChol_err cholX s e :
  (SolveCholesky (cholv (wish s)) (TriT (UFromCholesky cholX))).2 = Some e ->
  logProbSymChol cholX s = (Ok Inf_neg, s).
Proof.
  intros H. run. destruct (SolveCholesky _ _) as [y o]. simpl in H. subst o.
  reflexivity.
Qed.

Lemma LogProbSym_factorized x cholX s :
  Symmetric x = dim (wish s) -> Factorize x = (cholX, true) ->
  LogProbSym x s = logProbSymChol cholX s.
Proof.
  intros Hd Hf. unfold LogProbSym. unfold bind at 1. simpl.
  rewrite Hd, Z.eqb_refl, Hf. reflexivity.
Qed.

Lemma LogProbSym_not_pd x s :
  Symmetric x = dim (wish s) -> (Factorize x).2 = false ->
  LogProbSym x s = (Ok Inf_neg, s).
Proof.
  intros Hd Hf. unfold LogProbSym. unfold bind at 1. simpl.
  rewrite Hd, Z.eqb_refl. destruct (Factorize x) as [c ok]. simpl in Hf.
  subst ok. reflexivity.
Qed.

Lemma LogProbSymChol_sized cholX s :
  Valid cholX = true -> Size cholX = dim (wish s) ->
  LogProbSymChol cholX s = logProbSymChol cholX s.
Proof.
  intros Hv Hd. unfold LogProbSymChol. unfold bind at 1. simpl.
  rewrite Hv, Hd, Z.eqb_refl. reflexivity.
Qed.

Lemma ProbSym_exp x s :
  ProbSym x s
  = (Result_map Exp (LogProbSym x s).1, (LogProbSym x s).2).
Proof.
  unfold ProbSym, bind. destruct (LogProbSym x s) as [[l|msg|] s']; reflexivity.
Qed.

(** C1.  For a distribution built from [V] and [nu], in any state it can
    reach, and a matrix [X] of its order whose factorisation [cholX]
    succeeds: when the solve of [V Y = U^T] against the factor of [V] kept
    at construction returns [Y], both [LogProbSym(X)] and
    [logProbSymChol(cholX)] return
    [0.5*((nu-d-1)*logDetX - tr(Y U) - nu*d*ln2 - nu*logDetV) - MvLgamma(0.5*nu, d)],
    with [logDetX] the log-determinant of [cholX], [U] its upper factor and
    [logDetV] the log-determinant of the factor of [V]. *)
Theorem logProb_formula vm nu0 src0 w0 s x cholX y :
  constructed vm nu0 src0 w0 ->
  reachable w0 s ->
  Symmetric x = Symmetric vm ->
  Factorize x = (cholX, true) ->
  SolveCholesky (Factorize vm).1 (TriT (UFromCholesky cholX)) = (y, None) ->
  let d := Symmetric vm in
  let U := UFromCholesky cholX in
  let logDetX := LogDet cholX in
  let logDetV := LogDet (Factorize vm).1 in
  let tr := Trace (Mul y (tri_rows U)) in
  let r := (0.5 * ((nu0 - float64_of_int d - 1) * logDetX - tr
                   - nu0 * float64_of_int d * Ln2 - nu0 * logDetV)
            - MvLgamma (0.5 * nu0) d)%float in
  LogProbSym x s = (Ok r, s) /\ logProbSymChol cholX s = (Ok r, s).
Proof.
  intros Hc Hr Hd Hf Hs d U logDetX logDetV tr r.
  destruct (constructed_fields _ _ _ _ Hc) as (_ & _ & _ & Hw).
  destruct (reachable_fields _ _ Hr) as (Hnu & Hdim & Hch & Hld & _).
  rewrite Hw in Hnu, Hdim, Hch, Hld. simpl in *.
  assert (H2 : logProbSymChol cholX s = (Ok r, s)).
  { rewrite (logProbSymChol_ok cholX s y) by (rewrite Hch; exact Hs).
    rewrite Hnu, Hdim, Hld. reflexivity. }
  split; [|exact H2].
  rewrite (LogProbSym_factorized x cholX s); [exact H2| |exact Hf].
  rewrite Hdim. exact Hd.
Qed.

(** C5.  In every state: [LogProbSym] of a matrix of the right order whose
    factorisation fails returns negative infinity without a panic; and when
    the solve against the stored factor of [V] reports an error, the core
    computation, and so both entry points ([LogProbSymChol] on a valid
    factorisation), return negative infinity. *)
Theorem logProb_neg_infinity (s : State) :
  (forall x, Symmetric x = dim (wish s) -> (Factorize x).2 = false ->
     LogProbSym x s = (Ok Inf_neg, s)) /\
  (forall cholX e,
     (SolveCholesky (cholv (wish s)) (TriT (UFromCholesky cholX))).2 = Some e ->
     logProbSymChol cholX s = (Ok Inf_neg, s)) /\
  (forall x cholX e, Symmetric x = dim (wish s) -> Factorize x = (cholX, true) ->
     (SolveCholesky (cholv (wish s)) (TriT (UFromCholesky cholX))).2 = Some e ->
     LogProbSym x s = (Ok Inf_neg, s)) /\
  (forall cholX e, Valid cholX = true -> Size cholX = dim (wish s) ->
     (SolveCholesky (cholv (wish s)) (TriT (UFromCholesky cholX))).2 = Some e ->
     LogProbSymChol cholX s = (Ok Inf_neg, s)).
Proof.
  split; [|split; [|split]].
  - intros x. apply LogProbSym_not_pd.
  - intros cholX e. apply logProbSymChol_err.
  - intros x cholX e Hd Hf He.
    rewrite (LogProbSym_factorized x cholX s Hd Hf).
    exact (logProbSymChol_err _ _ _ He).
  - intros cholX e Hv Hd He. rewrite (LogProbSymChol_sized _ _ Hv Hd).
    exact (logProbSymChol_err _ _ _ He).
Qed.

(** C7.  When [cholX] is the factorisation [Factorize] returns for [X], a
    valid one of the order of [X] and of the distribution,
    [LogProbSymChol(cholX)] and [LogProbSym(X)] are the same computation:
    same result, same state. *)
Theorem LogProbSymChol_agrees (s : State) (x : SymDense) (cholX : Cholesky) :
  Symmetric x = dim (wish s) ->
  Factorize x = (cholX, true) ->
  Valid cholX = true ->
  Size cholX = Symmetric x ->
  LogProbSymChol cholX s = LogProbSym x s /\
  LogProbSym x s = logProbSymChol cholX s.
Proof.
  intros Hd Hf Hv Hs.
  rewrite (LogProbSym_factorized x cholX s Hd Hf).
  rewrite (LogProbSymChol_sized cholX s Hv) by congruence. auto.
Qed.

(** C8.  A buffer, matrix or (valid) factorisation whose order differs from
    [dim] makes [MeanSym], [LogProbSym] (and [ProbSym] through it) and
    [LogProbSymChol] panic, with the state, and so the buffer and its
    order, as before the call; a matrix of the right order that is not
    positive definite gives a result instead, negative infinity. *)
Theorem dimension_mismatch_panics (s : State) :
  (forall l xv, syms s !! l = Some xv -> Symmetric xv <> dim (wish s) ->
     MeanSym (Some l) s = (Panic badDim, s)) /\
  (forall x, Symmetric x <> dim (wish s) ->
     LogProbSym x s = (Panic "dimension mismatch", s) /\
     ProbSym x s = (Panic "dimension mismatch", s)) /\
  (forall cholX, Valid cholX = true -> Size cholX <> dim (wish s) ->
     LogProbSymChol cholX s = (Panic badDim, s)) /\
  (forall x, Symmetric x = dim (wish s) -> (Factorize x).2 = false ->
     LogProbSym x s = (Ok Inf_neg, s)).
Proof.
  split; [|split; [|split]].
  - intros l xv Hl Hd. run. rewrite Hl. simpl.
    apply Z.eqb_neq in Hd. rewrite Hd. reflexivity.
  - intros x Hd.
    assert (H : LogProbSym x s = (Panic "dimension mismatch", s)).
    { unfold LogProbSym. unfold bind at 1. simpl.
      apply Z.eqb_neq in Hd. rewrite Hd. reflexivity. }
    split; [exact H|]. rewrite ProbSym_exp, H. reflexivity.
  - intros cholX Hv Hd. unfold LogProbSymChol. unfold bind at 1. simpl.
    apply Z.eqb_neq in Hd. rewrite Hv, Hd. reflexivity.
  - intros x. apply LogProbSym_not_pd.
Qed.

(** ** Mean *)


Lemma MeanSym_nil s :
  MeanSym None s
  = MeanSym (Some (fresh (dom (syms s))))
      (with_syms s (<[fresh (dom (syms s)) := NewSymDense (dim (wish s))]> (syms s))).
Proof. reflexivity. Qed.

Lemma MeanSym_buffer l xv s V :
  syms s !! l = Some xv ->
  Symmetric xv = dim (wish s) ->
  v (wish (setV s).2) = Some V ->
  MeanSym (Some l) s
  = (Ok l, mkState (wish (setV s).2)
             (<[l := ScaleSym (nu (wish s)) (CopySym xv V)]> (syms s))
             (chols s) (rng s)).
Proof.
  intros Hl Hd HV. rewrite setV_spec in HV. simpl in HV.
  unfold MeanSym. unfold bind at 1. simpl. unfold bind at 1. simpl.
  unfold bind at 1, load_sym at 1, bind at 1. simpl. rewrite Hl. simpl.
  rewrite Hd, Z.eqb_refl. simpl.
  unfold bind at 1. rewrite setV_spec.
  destruct (once (wish s)) eqn:Ho; simpl in *.
  - run. rewrite HV. simpl. rewrite heap_lookup_insert. simpl.
    rewrite (insert_insert_eq (M:=gmap positive)). reflexivity.
  - run. rewrite heap_lookup_insert. simpl. inversion HV; subst V.
    rewrite (insert_insert_eq (M:=gmap positive)). reflexivity.
Qed.

(** C3.  For a distribution built from [V] and [nu], in any state it can
    reach, with [Vd] the dense matrix [FromCholesky] rebuilds from the
    stored factor (a square matrix of order [d]): [MeanSym] returns without
    a panic; with nil it returns a new address holding [ScaleSym nu Vd], a
    matrix of order [d]; with a buffer of order [d] it returns that address
    and only that buffer is written; in both cases every entry [(i, j)] of
    the result is [nu * Vd(i, j)], and the receiver afterwards holds [Vd]
    in its cache, which is the state it already had if an earlier call
    filled it. *)
Theorem MeanSym_mean vm nu0 src0 w0 s (x : option loc) :
  constructed vm nu0 src0 w0 ->
  reachable w0 s ->
  let d := length (sym_rows vm) in
  let Vd := FromCholesky (Factorize vm).1 in
  square d (sym_rows Vd) ->
  match x with
  | None => True
  | Some l => exists xv, syms s !! l = Some xv /\ Symmetric xv = Symmetric vm
  end ->
  exists l xm s',
    MeanSym x s = (Ok l, s') /\
    match x with
    | None => syms s !! l = None /\ xm = ScaleSym nu0 Vd
    | Some l0 => l = l0
    end /\
    syms s' = <[l := xm]> (syms s) /\ chols s' = chols s /\ rng s' = rng s /\
    wish s' = filled w0 /\ v (wish s') = Some Vd /\
    (wish s = filled w0 -> wish s' = wish s) /\
    Symmetric xm = Symmetric vm /\
    forall i j, (i < d)%nat -> (j < d)%nat ->
      exists vij, SymAt Vd i j = Some vij /\
                  SymAt xm i j = Some (nu0 * vij)%float.
Proof.
  intros Hc Hr d Vd HV Hx.
  destruct (constructed_fields _ _ _ _ Hc) as (_ & _ & _ & Hw0).
  destruct (reachable_fields _ _ Hr) as (Hnu & Hdim & Hch & _).
  assert (Hnu0 : nu (wish s) = nu0) by (rewrite Hnu, Hw0; reflexivity).
  assert (Hdim0 : dim (wish s) = Symmetric vm) by (rewrite Hdim, Hw0; reflexivity).
  assert (Hch0 : cholv w0 = (Factorize vm).1) by (rewrite Hw0; reflexivity).
  assert (Ho0 : once w0 = false) by (rewrite Hw0; reflexivity).
  assert (Hfill : wish (setV s).2 = filled w0).
  { rewrite setV_spec. destruct (reachable_wish _ _ Hr) as [Hw|Hw].
    - rewrite Hw, Ho0. reflexivity.
    - rewrite Hw. simpl. exact Hw. }
  assert (Hv : v (wish (setV s).2) = Some Vd).
  { rewrite Hfill. simpl. rewrite Hch0. reflexivity. }
  assert (Hentries : forall xv, length (sym_rows xv) = d ->
    forall i j, (i < d)%nat -> (j < d)%nat ->
      exists vij, SymAt Vd i j = Some vij /\
        SymAt (ScaleSym nu0 (CopySym xv Vd)) i j = Some (nu0 * vij)%float).
  { intros xv Hlen i j Hi Hj.
    destruct (square_at _ _ _ _ HV Hi Hj) as (row & vij & _ & _ & _ & Hat).
    exists vij. split; [exact Hat|].
    rewrite ScaleSym_at, (CopySym_at xv Vd d) by assumption.
    unfold SymAt. rewrite Hat. reflexivity. }
  destruct x as [l|].
  - destruct Hx as (xv & Hl & Hd).
    exists l, (ScaleSym nu0 (CopySym xv Vd)), 
      (mkState (wish (setV s).2)
         (<[l := ScaleSym nu0 (CopySym xv Vd)]> (syms s)) (chols s) (rng s)).
    split.
    { rewrite (MeanSym_buffer l xv s Vd Hl) by (try rewrite Hdim0; assumption).
      rewrite Hnu0. reflexivity. }
    simpl. repeat split; auto.
    + intros Hw. rewrite Hfill. auto.
    + rewrite Symmetric_ScaleSym, Symmetric_CopySym. exact Hd.
    + apply Hentries. unfold Symmetric in Hd. subst d. lia.
  - set (l := fresh (dom (syms s))).
    set (x0 := NewSymDense (dim (wish s))).
    assert (Hx0 : square d (sym_rows x0)).
    { subst x0. unfold NewSymDense. simpl. rewrite Hdim0. unfold Symmetric.
      rewrite Nat2Z.id. apply square_zeros. }
    exists l, (ScaleSym nu0 Vd),
      (mkState (wish (setV s).2) (<[l := ScaleSym nu0 Vd]> (syms s))
         (chols s) (rng s)).
    assert (Hcopy : CopySym x0 Vd = Vd) by (eapply CopySym_square; eauto).
    split.
    { rewrite MeanSym_nil. fold l x0.
      rewrite (MeanSym_buffer l x0 _ Vd).
      - simpl. rewrite Hcopy, Hnu0.
        rewrite (insert_insert_eq (M:=gmap positive)).
        f_equal. f_equal. rewrite !setV_spec. simpl.
        destruct (once (wish s)); reflexivity.
      - simpl. apply heap_lookup_insert.
      - simpl. subst x0. apply Symmetric_NewSymDense. rewrite Hdim0.
        unfold Symmetric. lia.
      - rewrite setV_spec in Hv |- *. simpl in *.
        destruct (once (wish s)); exact Hv. }
    simpl. repeat split; auto.
    + apply heap_fresh.
    + intros Hw. rewrite Hfill. auto.
    + rewrite Symmetric_ScaleSym. unfold Symmetric. destruct HV as [-> _].
      reflexivity.
    + intros i j Hi Hj.
      destruct (Hentries x0 (proj1 Hx0) i j Hi Hj) as (vij & H1 & H2).
      rewrite Hcopy in H2. eauto.
Qed.

(** ** Sampling *)

Lemma SetTri_upper t p x n :
  tri_kind t = Upper -> square n (tri_rows t) ->
  0 <= p.1 <= p.2 -> p.2 < Z.of_nat n ->
  SetTri t p.1 p.2 x = Ok (tri_set t p x) /\
  tri_kind (tri_set t p x) = Upper /\
  square n (tri_rows (tri_set t p x)) /\
  forall q, 0 <= q.1 -> 0 <= q.2 ->
    TriAtZ (tri_set t p x) q = if decide (q = p) then Some x else TriAtZ t q.
Proof.
  destruct p as [i j]. simpl. intros Hk [Hl Hrows] Hij Hj.
  unfold SetTri, TriN. rewrite Hl, Hk.
  assert (H1 : (0 <=? i) && (i <? Z.of_nat n) = true).
  { apply andb_true_iff. split; [apply Z.leb_le|apply Z.ltb_lt]; lia. }
  assert (H2 : (0 <=? j) && (j <? Z.of_nat n) = true).
  { apply andb_true_iff. split; [apply Z.leb_le|apply Z.ltb_lt]; lia. }
  assert (H3 : (j <? i) = false) by (apply Z.ltb_ge; lia).
  rewrite H1, H2, H3. simpl.
  split; [reflexivity|]. unfold tri_set. simpl. split; [reflexivity|]. split.
  - split; [rewrite length_alter; exact Hl|].
    apply Forall_alter; [exact Hrows|]. intros row _ Hrow.
    rewrite length_insert. exact Hrow.
  - intros [a b] Ha Hb. simpl in *. unfold TriAtZ, TriAt, rows_at. simpl.
    destruct (decide ((a, b) = (i, j))) as [[= -> ->]|Hne].
    + rewrite list_lookup_alter_eq.
      destruct (lookup_lt_is_Some_2 (tri_rows t) (Z.to_nat i)) as [row Hrow];
        [lia|].
      rewrite Hrow. simpl. apply list_lookup_insert_eq.
      assert (length row = n) by (eapply (proj1 (Forall_lookup _ _) Hrows); eauto).
      lia.
    + destruct (decide (a = i)) as [->|Hai].
      * rewrite list_lookup_alter_eq.
        destruct (tri_rows t !! Z.to_nat i) as [row|]; simpl; [|done].
        apply list_lookup_insert_ne. intros Heq. apply Hne. f_equal. lia.
      * rewrite list_lookup_alter_ne by lia. reflexivity.
Qed.

Lemma draws_cons (f : Sampler) fs r :
  draws (f :: fs) r
  = match f r with
    | (Ok x, r1) => (Result_map (cons x) (draws fs r1).1, (draws fs r1).2)
    | (Panic msg, r1) => (Panic msg, r1)
    | (NoReturn, r1) => (NoReturn, r1)
    end.
Proof.
  simpl. unfold bind. destruct (f r) as [[x|msg|] r1]; try reflexivity.
  destruct (draws fs r1) as [[xs|msg|] r2]; reflexivity.
Qed.

Lemma length_draws fs : forall r xs r',
  draws fs r = (Ok xs, r') -> length xs = length fs.
Proof.
  induction fs as [|f fs IH]; intros r xs r'.
  - intros [= <- _]. reflexivity.
  - rewrite draws_cons. destruct (f r) as [[x|msg|] r1]; try discriminate.
    destruct (draws fs r1) as [[ys|msg|] r2] eqn:E; simpl; try discriminate.
    intros [= <- _]. simpl. f_equal. exact (IH _ _ _ E).
Qed.

Lemma fill_cons st rest x xs t :
  fill (st :: rest) (x :: xs) t
  = fill rest xs (tri_set t (st_pos st) (st_g st x)).
Proof. reflexivity. Qed.

(** Values stored at distinct in-range positions of an upper triangular
    matrix: each is at its position, every other entry is left alone. *)
Lemma fill_spec n steps : forall xs t,
  tri_kind t = Upper -> square n (tri_rows t) ->
  Forall (fun st => 0 <= (st_pos st).1 <= (st_pos st).2 /\
                    (st_pos st).2 < Z.of_nat n) steps ->
  NoDup (st_pos <$> steps) ->
  length xs = length steps ->
  let t' := fill steps xs t in
  tri_kind t' = Upper /\ square n (tri_rows t') /\
  (TriAtZ t' ∘ st_pos) <$> steps
  = zip_with (fun st x => Some (st_g st x)) steps xs /\
  forall q, 0 <= q.1 -> 0 <= q.2 -> q ∉ st_pos <$> steps ->
    TriAtZ t' q = TriAtZ t q.
Proof.
  induction steps as [|st rest IH]; intros xs t Hk Hsq Hin Hnd Hlen.
  - destruct xs; [|discriminate]. simpl. repeat split; auto; apply Hsq.
  - destruct xs as [|x xs]; [discriminate|]. injection Hlen as Hlen.
    apply Forall_cons in Hin as [[Hp1 Hp2] Hin].
    rewrite fmap_cons in Hnd. apply NoDup_cons in Hnd as [Hnotin Hnd].
    destruct (SetTri_upper t (st_pos st) (st_g st x) n Hk Hsq Hp1 Hp2)
      as (_ & Hk1 & Hsq1 & Hat1).
    destruct (IH xs _ Hk1 Hsq1 Hin Hnd Hlen) as (Hk' & Hsq' & Hent & Hframe).
    rewrite fill_cons. cbv zeta in *.
    split; [exact Hk'|]. split; [exact Hsq'|]. split.
    + rewrite fmap_cons. simpl. f_equal; [|exact Hent].
      rewrite Hframe; [| lia | lia | exact Hnotin].
      rewrite Hat1 by lia. rewrite decide_True by reflexivity. reflexivity.
    + intros q Hq1 Hq2 Hq. apply not_elem_of_cons in Hq as [Hne Hq].
      rewrite Hframe by assumption. rewrite Hat1 by assumption.
      rewrite decide_False by assumption. reflexivity.
Qed.

(** A run of steps at distinct in-range positions of an upper triangular
    matrix has the outcome of its draws: it never panics in [SetTri], it
    consumes the draws in order and stores each at its position, and it
    stops where a sampler does not return. *)
Lemma run_steps_draws n steps : forall t s,
  tri_kind t = Upper -> square n (tri_rows t) ->
  Forall (fun st => 0 <= (st_pos st).1 <= (st_pos st).2 /\
                    (st_pos st).2 < Z.of_nat n) steps ->
  NoDup (st_pos <$> steps) ->
  run_steps steps t s
  = (Result_map (fun xs => fill steps xs t) (draws (st_f <$> steps) (rng s)).1,
     with_rng s (draws (st_f <$> steps) (rng s)).2).
Proof.
  induction steps as [|st rest IH]; intros t s Hk Hsq Hin Hnd.
  - destruct s. reflexivity.
  - apply Forall_cons in Hin as [[Hp1 Hp2] Hin].
    rewrite fmap_cons in Hnd. apply NoDup_cons in Hnd as [Hnotin Hnd].
    rewrite fmap_cons, draws_cons. simpl run_steps.
    unfold bind at 1. unfold bind at 1. unfold draw at 1.
    destruct (st_f st (rng s)) as [[x|msg|] r1] eqn:Hf; try reflexivity.
    destruct (SetTri_upper t (st_pos st) (st_g st x) n Hk Hsq Hp1 Hp2)
      as (Hset & Hk1 & Hsq1 & _).
    unfold lift. rewrite Hset.
    rewrite (IH _ (mkState (wish s) (syms s) (chols s) r1) Hk1 Hsq1 Hin Hnd).
    simpl. destruct (draws (st_f <$> rest) r1) as [[xs|msg|] r2]; reflexivity.
Qed.

Lemma bind_assoc {S A B D} (m : StateM S A) (k : A -> StateM S B)
    (k' : B -> StateM S D) s :
  bind (bind m k) k' s = bind m (fun a => bind (k a) k') s.
Proof.
  unfold bind. destruct (m s) as [[a|msg|] s1]; reflexivity.
Qed.

Lemma bind_ext {S A B} (m : StateM S A) (k1 k2 : A -> StateM S B) s :
  (forall a s', k1 a s' = k2 a s') -> bind m k1 s = bind m k2 s.
Proof.
  intros H. unfold bind.
  destruct (m s) as [[a|msg|] s1]; [apply H|reflexivity|reflexivity].
Qed.

Lemma run_steps_app steps1 steps2 : forall t s,
  run_steps (steps1 ++ steps2) t s
  = bind (run_steps steps1 t) (run_steps steps2) s.
Proof.
  induction steps1 as [|st rest IH]; intros t s.
  - reflexivity.
  - simpl. symmetry. etransitivity; [apply bind_assoc|].
    apply bind_ext. intros t1 s1. symmetry. apply IH.
Qed.

Lemma seqZ_of_to_nat m z : seqZ m (Z.of_nat (Z.to_nat z)) = seqZ m z.
Proof. unfold seqZ. rewrite Nat2Z.id. reflexivity. Qed.

(** A counted loop whose body is a run of steps is the run of all of
    them. *)
Lemma for_loop_rows (row : Z -> list Step) (body : Z -> TriDense -> M TriDense) :
  (forall i t s, body i t s = run_steps (row i) t s) ->
  forall n i t s,
    for_loop n i body t s = run_steps (seqZ i (Z.of_nat n) ≫= row) t s.
Proof.
  intros Hbody. induction n as [|n IH]; intros i t s.
  - reflexivity.
  - rewrite seqZ_cons by lia. rewrite bind_cons, run_steps_app. simpl.
    unfold bind. rewrite Hbody.
    destruct (run_steps (row i) t s) as [[t1|msg|] s1];
      [|reflexivity|reflexivity].
    rewrite IH. do 3 f_equal. lia.
Qed.

Lemma for_range_rows (row : Z -> list Step) (body : Z -> TriDense -> M TriDense) :
  (forall i t s, body i t s = run_steps (row i) t s) ->
  forall lo hi t s,
    for_range lo hi body t s = run_steps (seqZ lo (hi - lo) ≫= row) t s.
Proof.
  intros Hbody lo hi t s. unfold for_range.
  rewrite (for_loop_rows row body Hbody), seqZ_of_to_nat. reflexivity.
Qed.

Lemma run_steps_one st t s :
  run_steps [st] t s
  = bind (draw (st_f st))
      (fun x => lift (SetTri t (st_pos st).1 (st_pos st).2 (st_g st x))) s.
Proof.
  simpl. unfold bind at 1.
  destruct (bind (draw (st_f st)) _ s) as [[t1|msg|] s1]; reflexivity.
Qed.

Lemma bind_singleton_fmap {A B} (f : A -> B) (l : list A) :
  l ≫= (fun a => [f a]) = f <$> l.
Proof. induction l as [|a l IH]; [reflexivity|]. rewrite bind_cons, IH. reflexivity. Qed.

Lemma fmap_bind_list {A B D} (f : B -> D) (g : A -> list B) (l : list A) :
  f <$> (l ≫= g) = l ≫= (fun a => f <$> g a).
Proof.
  induction l as [|a l IH]; [reflexivity|].
  rewrite !bind_cons, fmap_app, IH. reflexivity.
Qed.

Lemma chi_steps_pos w : st_pos <$> chi_steps w = diag_pos (dim w).
Proof. unfold chi_steps, diag_pos. rewrite <- list_fmap_compose. reflexivity. Qed.
Lemma chi_steps_f w : st_f <$> chi_steps w = chi_samplers w.
Proof. unfold chi_steps, chi_samplers. rewrite <- list_fmap_compose. reflexivity. Qed.
Lemma normal_steps_pos w : st_pos <$> normal_steps w = upper_pos (dim w).
Proof.
  unfold normal_steps, upper_pos. rewrite fmap_bind_list.
  apply list_bind_ext; [|reflexivity]. intros i.
  rewrite <- list_fmap_compose. reflexivity.
Qed.
Lemma normal_steps_f w : st_f <$> normal_steps w = normal_samplers w.
Proof.
  unfold normal_steps, normal_samplers, upper_pos. rewrite !fmap_bind_list.
  apply list_bind_ext; [|reflexivity]. intros i.
  rewrite <- !list_fmap_compose. reflexivity.
Qed.

Lemma elem_of_diag_pos d p :
  p ∈ diag_pos d <-> 0 <= p.1 < d /\ p.2 = p.1.
Proof.
  unfold diag_pos. rewrite list_elem_of_fmap. split.
  - intros (i & -> & Hi%elem_of_seqZ). simpl. lia.
  - intros [H1 H2]. exists p.1. split; [destruct p; simpl in *; congruence|].
    apply elem_of_seqZ. lia.
Qed.

Lemma elem_of_upper_pos d p :
  p ∈ upper_pos d <-> 0 <= p.1 /\ p.1 < p.2 < d.
Proof.
  unfold upper_pos. rewrite list_elem_of_bind. split.
  - intros (i & (j & -> & Hj%elem_of_seqZ)%list_elem_of_fmap & Hi%elem_of_seqZ).
    simpl. lia.
  - intros [H1 H2]. exists p.1. split; [|apply elem_of_seqZ; lia].
    apply list_elem_of_fmap. exists p.2. split; [destruct p; reflexivity|].
    apply elem_of_seqZ. lia.
Qed.

Lemma NoDup_diag_pos d : NoDup (diag_pos d).
Proof.
  unfold diag_pos. apply NoDup_fmap_2; [|apply NoDup_seqZ].
  intros i j [= ->]. reflexivity.
Qed.

Lemma NoDup_upper_pos d : NoDup (upper_pos d).
Proof.
  unfold upper_pos. apply NoDup_bind; [| |apply NoDup_seqZ].
  - intros i1 i2 p _ _ (j1 & -> & _)%list_elem_of_fmap
      (j2 & [= -> _] & _)%list_elem_of_fmap. reflexivity.
  - intros i _. apply NoDup_fmap_2; [|apply NoDup_seqZ].
    intros j1 j2 [= ->]. reflexivity.
Qed.

Lemma zip_with_steps (h : float64 -> float64) (steps : list Step) xs :
  Forall (fun st => forall x, st_g st x = h x) steps ->
  length steps = length xs ->
  zip_with (fun st x => Some (st_g st x)) steps xs = (fun x => Some (h x)) <$> xs.
Proof.
  intros Hg. revert xs. induction Hg as [|st steps Hst Hg IH]; intros [|x xs];
    simpl; try discriminate; [reflexivity|].
  intros [= H]. rewrite Hst, IH by exact H. reflexivity.
Qed.

Lemma chi_steps_g w :
  Forall (fun st => forall x, st_g st x = PrimFloat.sqrt x) (chi_steps w).
Proof.
  apply Forall_forall. intros st (i & -> & _)%list_elem_of_fmap. reflexivity.
Qed.

Lemma normal_steps_g w :
  Forall (fun st => forall x, st_g st x = x) (normal_steps w).
Proof.
  apply Forall_forall.
  intros st (i & (j & -> & _)%list_elem_of_fmap & _)%list_elem_of_bind.
  reflexivity.
Qed.

Lemma TriAtZ_zeros d k p :
  0 <= p.1 < d -> 0 <= p.2 < d -> TriAtZ (NewTriDense d k) p = Some 0%float.
Proof.
  intros H1 H2. unfold TriAtZ, TriAt, rows_at, NewTriDense, zeros. simpl.
  rewrite lookup_replicate_2 by lia. simpl. apply lookup_replicate_2. lia.
Qed.

Lemma chi_loop_steps w t s :
  for_range 0 (dim w) (fun i t =>
      x <- draw (ChiSquared_Rand (nu w - float64_of_int i) (src w)) ;;
      lift (SetTri t i i (PrimFloat.sqrt x))) t s
  = run_steps (chi_steps w) t s.
Proof.
  rewrite (for_range_rows
    (fun i => [mkStep (i, i) (ChiSquared_Rand (chi_K w i) (src w)) PrimFloat.sqrt])).
  - rewrite Z.sub_0_r, bind_singleton_fmap. reflexivity.
  - intros i t1 s1. rewrite run_steps_one. reflexivity.
Qed.

Lemma normal_loop_steps w t s :
  for_range 0 (dim w) (fun i t =>
      for_range (i + 1) (dim w) (fun j t =>
        x <- draw (Normal_Rand 0 1 (src w)) ;;
        lift (SetTri t i j x)) t) t s
  = run_steps (normal_steps w) t s.
Proof.
  rewrite (for_range_rows
    (fun i => (fun j => mkStep (i, j) (Normal_Rand 0 1 (src w)) (fun x => x))
                <$> seqZ (i + 1) (dim w - (i + 1)))).
  - rewrite Z.sub_0_r. reflexivity.
  - intros i t1 s1.
    rewrite (for_range_rows
      (fun j => [mkStep (i, j) (Normal_Rand 0 1 (src w)) (fun x => x)])).
    + rewrite bind_singleton_fmap. reflexivity.
    + intros j t2 s2. rewrite run_steps_one. reflexivity.
Qed.

Lemma chi_steps_range w :
  Forall (fun st => 0 <= (st_pos st).1 <= (st_pos st).2 /\
                    (st_pos st).2 < Z.of_nat (Z.to_nat (dim w))) (chi_steps w).
Proof.
  apply Forall_forall. intros st Hst.
  assert (Hp : st_pos st ∈ diag_pos (dim w)).
  { rewrite <- chi_steps_pos. apply list_elem_of_fmap_2. exact Hst. }
  apply elem_of_diag_pos in Hp. lia.
Qed.

Lemma normal_steps_range w :
  Forall (fun st => 0 <= (st_pos st).1 <= (st_pos st).2 /\
                    (st_pos st).2 < Z.of_nat (Z.to_nat (dim w))) (normal_steps w).
Proof.
  apply Forall_forall. intros st Hst.
  assert (Hp : st_pos st ∈ upper_pos (dim w)).
  { rewrite <- normal_steps_pos. apply list_elem_of_fmap_2. exact Hst. }
  apply elem_of_upper_pos in Hp. lia.
Qed.

Lemma chi_steps_length w : length (chi_steps w) = length (chi_samplers w).
Proof. rewrite <- chi_steps_f, length_fmap. reflexivity. Qed.
Lemma normal_steps_length w :
  length (normal_steps w) = length (normal_samplers w).
Proof. rewrite <- normal_steps_f, length_fmap. reflexivity. Qed.

(** What [Bartlett] holds, position by position, for as many values as
    there are samplers. *)
Lemma Bartlett_entries w xs ys :
  length xs = length (chi_samplers w) ->
  length ys = length (normal_samplers w) ->
  let d := dim w in
  let A := Bartlett w xs ys in
  tri_kind A = Upper /\ square (Z.to_nat d) (tri_rows A) /\
  entries A (diag_pos d) = (fun x => Some (PrimFloat.sqrt x)) <$> xs /\
  entries A (upper_pos d) = Some <$> ys /\
  forall i j, 0 <= j < i -> i < d -> TriAtZ A (i, j) = Some 0%float.
Proof.
  intros Hxs Hys d A. subst d A.
  rewrite <- chi_steps_length in Hxs. rewrite <- normal_steps_length in Hys.
  destruct (fill_spec (Z.to_nat (dim w)) (chi_steps w) xs
              (NewTriDense (dim w) Upper)) as (Hk1 & Hsq1 & Hent1 & Hfr1).
  { reflexivity. } { apply square_zeros. } { apply chi_steps_range. }
  { rewrite chi_steps_pos. apply NoDup_diag_pos. } { exact Hxs. }
  destruct (fill_spec (Z.to_nat (dim w)) (normal_steps w) ys _ Hk1 Hsq1)
    as (Hk2 & Hsq2 & Hent2 & Hfr2).
  { apply normal_steps_range. }
  { rewrite normal_steps_pos. apply NoDup_upper_pos. } { exact Hys. }
  cbv zeta in Hent1, Hfr1, Hent2, Hfr2.
  rewrite normal_steps_pos in Hfr2. rewrite chi_steps_pos in Hfr1.
  fold (Bartlett w xs ys) in *.
  split; [exact Hk2|]. split; [exact Hsq2|]. split; [|split].
  - unfold entries. rewrite <- chi_steps_pos, <- list_fmap_compose.
    transitivity ((TriAtZ (fill (chi_steps w) xs
                             (NewTriDense (dim w) Upper)) ∘ st_pos)
                    <$> chi_steps w).
    + apply list_fmap_ext. intros k st Hst. simpl.
      apply Hfr2.
      * pose proof (chi_steps_range w) as Hrg.
        eapply (proj1 (Forall_lookup _ _) Hrg) in Hst. lia.
      * pose proof (chi_steps_range w) as Hrg.
        eapply (proj1 (Forall_lookup _ _) Hrg) in Hst. lia.
      * intros Hup%elem_of_upper_pos.
        assert (Hd : st_pos st ∈ diag_pos (dim w)).
        { rewrite <- chi_steps_pos. apply list_elem_of_fmap_2.
          eapply list_elem_of_lookup_2. exact Hst. }
        apply elem_of_diag_pos in Hd. lia.
    + rewrite Hent1. apply zip_with_steps; [apply chi_steps_g|].
      symmetry. exact Hxs.
  - unfold entries. rewrite <- normal_steps_pos, <- list_fmap_compose.
    rewrite Hent2. apply (zip_with_steps (fun x => x)); [apply normal_steps_g|].
    symmetry. exact Hys.
  - intros i j Hij Hi.
    rewrite Hfr2; [|simpl; lia|simpl; lia|].
    + rewrite Hfr1; [|simpl; lia|simpl; lia|].
      * apply TriAtZ_zeros; simpl; lia.
      * intros Hd%elem_of_diag_pos. simpl in Hd. lia.
    + intros Hu%elem_of_upper_pos. simpl in Hu. lia.
Qed.

Lemma Bartlett_draws_cases w r :
  Bartlett_draws w r
  = match draws (chi_samplers w) r with
    | (Ok xs, r1) =>
        (Result_map (pair xs) (draws (normal_samplers w) r1).1,
         (draws (normal_samplers w) r1).2)
    | (Panic msg, r1) => (Panic msg, r1)
    | (NoReturn, r1) => (NoReturn, r1)
    end.
Proof.
  unfold Bartlett_draws, bind.
  destruct (draws (chi_samplers w) r) as [[xs|msg|] r1]; try reflexivity.
  destruct (draws (normal_samplers w) r1) as [[ys|msg|] r2]; reflexivity.
Qed.

(** The two loops of [RandChol], run from the zero matrix: the outcome of
    the draws, the matrix [Bartlett] when they all return, the sources as
    the last sampler left them. *)
Lemma Bartlett_run s :
  let w := wish s in
  bind (run_steps (chi_steps w) (NewTriDense (dim w) Upper))
       (run_steps (normal_steps w)) s
  = (Result_map (fun p => Bartlett w p.1 p.2) (Bartlett_draws w (rng s)).1,
     with_rng s (Bartlett_draws w (rng s)).2).
Proof.
  intros w. subst w. rewrite Bartlett_draws_cases. unfold bind at 1.
  rewrite (run_steps_draws (Z.to_nat (dim (wish s))) (chi_steps (wish s)));
    [| reflexivity | apply square_zeros | apply chi_steps_range
     | rewrite chi_steps_pos; apply NoDup_diag_pos ].
  rewrite chi_steps_f.
  destruct (draws (chi_samplers (wish s)) (rng s)) as [[xs|msg|] r1] eqn:Hchi;
    try reflexivity.
  simpl Result_map.
  destruct (fill_spec (Z.to_nat (dim (wish s))) (chi_steps (wish s)) xs
              (NewTriDense (dim (wish s)) Upper)) as (Hk1 & Hsq1 & _).
  { reflexivity. } { apply square_zeros. } { apply chi_steps_range. }
  { rewrite chi_steps_pos. apply NoDup_diag_pos. }
  { rewrite chi_steps_length. exact (length_draws _ _ _ _ Hchi). }
  rewrite (run_steps_draws _ (normal_steps (wish s)) _ _ Hk1 Hsq1);
    [| apply normal_steps_range
     | rewrite normal_steps_pos; apply NoDup_upper_pos ].
  rewrite normal_steps_f. simpl.
  destruct (draws (normal_samplers (wish s)) r1) as [[ys|msg|] r2];
    reflexivity.
Qed.

Lemma RandChol_loops s :
  let w := wish s in
  bind (for_range 0 (dim w) (fun i t =>
          x <- draw (ChiSquared_Rand (nu w - float64_of_int i) (src w)) ;;
          lift (SetTri t i i (PrimFloat.sqrt x))) (NewTriDense (dim w) Upper))
       (for_range 0 (dim w) (fun i t =>
          for_range (i + 1) (dim w) (fun j t =>
            x <- draw (Normal_Rand 0 1 (src w)) ;;
            lift (SetTri t i j x)) t)) s
  = (Result_map (fun p => Bartlett w p.1 p.2) (Bartlett_draws w (rng s)).1,
     with_rng s (Bartlett_draws w (rng s)).2).
Proof.
  intros w. subst w. rewrite <- (Bartlett_run s).
  unfold bind. rewrite chi_loop_steps.
  destruct (run_steps (chi_steps (wish s)) _ s) as [[t|msg|] s1];
    [|reflexivity|reflexivity].
  apply normal_loop_steps.
Qed.

(** [RandChol], outcome by outcome of its draws. *)
Lemma RandChol_run c s :
  let w := wish s in
  let l := match c with Some l0 => l0 | None => fresh (dom (chols s)) end in
  RandChol c s
  = match Bartlett_draws w (rng s) with
    | (Ok p, r') =>
        (Ok l, mkState w (syms s)
                 (<[l := SetFromU (MulTri (Bartlett w p.1 p.2) (upper w))]>
                    (chols s)) r')
    | (Panic msg, r') => (Panic msg, mkState w (syms s) (chols s) r')
    | (NoReturn, r') => (NoReturn, mkState w (syms s) (chols s) r')
    end.
Proof.
  intros w l. subst w l. unfold RandChol. unfold bind at 1. simpl.
  rewrite <- bind_assoc. unfold bind at 1.
  pose proof (RandChol_loops s) as HL. simpl in HL. rewrite HL. clear HL.
  destruct (Bartlett_draws (wish s) (rng s)) as [[p|msg|] r'];
    [|reflexivity|reflexivity].
  destruct c as [l0|]; run.
  - reflexivity.
  - rewrite (insert_insert_eq (M:=gmap positive)). reflexivity.
Qed.

Lemma Bartlett_draws_ok w r xs r1 ys r2 :
  draws (chi_samplers w) r = (Ok xs, r1) ->
  draws (normal_samplers w) r1 = (Ok ys, r2) ->
  Bartlett_draws w r = (Ok (xs, ys), r2).
Proof.
  intros H1 H2. unfold Bartlett_draws, bind. rewrite H1, H2. reflexivity.
Qed.

Lemma new_chol_run c0 (s : State) :
  new_chol c0 s
  = (Ok (fresh (dom (chols s))),
     mkState (wish s) (syms s) (<[fresh (dom (chols s)) := c0]> (chols s)) (rng s)).
Proof. reflexivity. Qed.

Lemma load_chol_run l cv (s : State) :
  chols s !! l = Some cv -> load_chol l s = (Ok cv, s).
Proof. intros H. run. rewrite H. reflexivity. Qed.

Lemma load_sym_run l xv (s : State) :
  syms s !! l = Some xv -> load_sym l s = (Ok xv, s).
Proof. intros H. run. rewrite H. reflexivity. Qed.

(** [RandSym] on nil or on an existing buffer [xv], when the draws
    return: the check of the receiver of [FromCholesky], then the store. *)
Lemma RandSym_run x s p r' :
  let w := wish s in
  let l := match x with Some l0 => l0 | None => fresh (dom (syms s)) end in
  let xv := match x with
            | Some l0 => default SymDense_zero (syms s !! l0)
            | None => SymDense_zero
            end in
  let cX := SetFromU (MulTri (Bartlett w p.1 p.2) (upper w)) in
  match x with Some l0 => is_Some (syms s !! l0) | None => True end ->
  Bartlett_draws w (rng s) = (Ok p, r') ->
  RandSym x s
  = if negb (Symmetric xv =? 0) && negb (Symmetric xv =? Size cX)
    then (Panic ErrShape, mkState w (syms s) (chols s) r')
    else (Ok l, mkState w (<[l := FromCholesky cX]> (syms s)) (chols s) r').
Proof.
  intros w l xv cX Hx Hd. unfold RandSym.
  set (sy1 := match x with
              | Some _ => syms s
              | None => <[l := SymDense_zero]> (syms s)
              end).
  assert (H1 : (match x with
                | Some l0 => ret l0
                | None => new_sym SymDense_zero
                end) s = (Ok l, mkState w sy1 (chols s) (rng s))).
  { subst sy1 l w. destruct x; [destruct s|]; reflexivity. }
  assert (Hl : sy1 !! l = Some xv).
  { subst sy1 l xv. destruct x as [l0|]; [|apply heap_lookup_insert].
    destruct Hx as [y Hy]. rewrite Hy. reflexivity. }
  unfold bind at 1. rewrite H1.
  unfold bind at 1. rewrite new_chol_run. simpl.
  set (c := fresh (dom (chols s))).
  unfold bind at 1. rewrite RandChol_run. simpl. fold w. rewrite Hd.
  fold cX.
  unfold bind at 1. rewrite (load_chol_run c cX)
    by (simpl; apply heap_lookup_insert).
  unfold bind at 1. unfold set_chols, modify. simpl.
  unfold bind at 1. rewrite (load_sym_run l xv) by exact Hl.
  assert (Hch : delete c (<[c := cX]> (<[c := Cholesky_zero]> (chols s)))
                = chols s).
  { rewrite (insert_insert_eq (M:=gmap positive)).
    rewrite (delete_insert_eq (M:=gmap positive)).
    apply (delete_id (M:=gmap positive)). apply heap_fresh. }
  rewrite Hch.
  destruct (negb (Symmetric xv =? 0) && negb (Symmetric xv =? Size cX)) eqn:Hchk.
  - unfold panic. f_equal. f_equal. subst sy1. destruct x; [reflexivity|].
    subst xv. discriminate Hchk.
  - unfold bind at 1. unfold store_sym, set_syms, modify, ret. simpl.
    f_equal. f_equal. subst sy1. destruct x; [reflexivity|].
    apply (insert_insert_eq (M:=gmap positive)).
Qed.

(** A draw that does not return ends [RandSym] the same way. *)
Lemma RandSym_fails x s o r' :
  Bartlett_draws (wish s) (rng s) = (o, r') ->
  (forall p, o <> Ok p) ->
  (RandSym x s).1 = Result_map (fun _ => 1%positive) o.
Proof.
  intros Hd Ho. unfold RandSym.
  unfold bind at 1.
  destruct ((match x with
             | Some l0 => ret l0
             | None => new_sym SymDense_zero
             end) s) as [[l|msg|] s1] eqn:H1;
    [| destruct x; discriminate H1 | destruct x; discriminate H1 ].
  assert (Hs1 : wish s1 = wish s /\ rng s1 = rng s).
  { destruct x; injection H1 as <- <-; auto. }
  destruct Hs1 as [Hw Hr].
  unfold bind at 1. rewrite new_chol_run. simpl.
  unfold bind at 1. rewrite RandChol_run. simpl. rewrite Hw, Hr, Hd.
  destruct o as [p|msg|]; [exfalso; exact (Ho p eq_refl)| |]; reflexivity.
Qed.

(** C2.  For a distribution built from [V] and [nu] on the source [src],
    of dimension [d], in any state it can reach:
    - [RandChol] calls, in this order, one chi-squared sampler per row [i]
      of [0..d-1] with [nu - i] degrees of freedom and one standard normal
      sampler per position above the diagonal, row by row, all on [src];
    - when these calls return [xs] and [ys], the matrix [A] it builds is
      upper triangular of order [d], its diagonal, read top to bottom, is
      the square roots of [xs], its strict upper triangle, read row by
      row, is [ys], and its entries below the diagonal are zero;
      [RandChol] then returns the address (the one passed, or a new one)
      of [SetFromU (MulTri A U)], with [U] the upper factor of [V] kept at
      construction, changes nothing else but the random sources, and
      never factorises; [RandSym], on nil, on an empty buffer or on a
      buffer of the order of that factorisation, returns the address (the
      one passed, or a new one) of the matrix [FromCholesky] rebuilds from
      it, and on any other buffer panics in [FromCholesky] with no buffer
      written;
    - when a sampler panics or does not return, so do [RandChol] and
      [RandSym], and [RandChol] has written no buffer. *)
Theorem RandChol_bartlett vm nu0 src0 w0 (s : State) :
  constructed vm nu0 src0 w0 ->
  reachable w0 s ->
  let w := wish s in
  let d := Symmetric vm in
  let U := UFromCholesky (Factorize vm).1 in
  (dim w = d /\
   chi_samplers w
   = (fun i => ChiSquared_Rand (nu0 - float64_of_int i) src0) <$> seqZ 0 d /\
   normal_samplers w = (fun _ => Normal_Rand 0 1 src0) <$> upper_pos d) /\
  (forall xs r1 ys r2,
     draws (chi_samplers w) (rng s) = (Ok xs, r1) ->
     draws (normal_samplers w) r1 = (Ok ys, r2) ->
     let A := Bartlett w xs ys in
     let cX := SetFromU (MulTri A U) in
     (tri_kind A = Upper /\ square (Z.to_nat d) (tri_rows A) /\
      entries A (diag_pos d) = (fun x => Some (PrimFloat.sqrt x)) <$> xs /\
      entries A (upper_pos d) = Some <$> ys /\
      (forall i j, 0 <= j < i -> i < d -> TriAtZ A (i, j) = Some 0%float)) /\
     (forall c, exists l,
        RandChol c s = (Ok l, mkState w (syms s) (<[l := cX]> (chols s)) r2) /\
        match c with Some l0 => l = l0 | None => chols s !! l = None end) /\
     (forall x,
        match x with
        | Some l0 => exists xv, syms s !! l0 = Some xv /\
                                (Symmetric xv = 0 \/ Symmetric xv = Size cX)
        | None => True
        end ->
        exists l,
          RandSym x s
          = (Ok l, mkState w (<[l := FromCholesky cX]> (syms s)) (chols s) r2) /\
          match x with Some l0 => l = l0 | None => syms s !! l = None end) /\
     (forall l0 xv,
        syms s !! l0 = Some xv ->
        Symmetric xv <> 0 -> Symmetric xv <> Size cX ->
        RandSym (Some l0) s
        = (Panic ErrShape, mkState w (syms s) (chols s) r2))) /\
  (forall o r', Bartlett_draws w (rng s) = (o, r') ->
     (forall p, o <> Ok p) ->
     forall c x,
       RandChol c s
       = (Result_map (fun _ => 1%positive) o, mkState w (syms s) (chols s) r') /\
       (RandSym x s).1 = Result_map (fun _ => 1%positive) o).
Proof.
  intros Hc Hr w d U. subst d U.
  destruct (constructed_fields _ _ _ _ Hc) as (_ & _ & _ & Hw0).
  destruct (reachable_fields _ _ Hr) as (Hnu & Hdim & _ & _ & Hup & Hsrc).
  rewrite Hw0 in Hnu, Hdim, Hup, Hsrc. simpl in Hnu, Hdim, Hup, Hsrc.
  fold w in Hnu, Hdim, Hup, Hsrc.
  split; [|split].
  - split; [exact Hdim|]. unfold chi_samplers, normal_samplers, chi_K.
    rewrite Hnu, Hdim, Hsrc. split; reflexivity.
  - intros xs r1 ys r2 Hchi Hnorm. cbv zeta. rewrite <- Hdim, <- Hup.
    set (A := Bartlett w xs ys). set (cX := SetFromU (MulTri A (upper w))).
    pose proof (Bartlett_draws_ok w (rng s) xs r1 ys r2 Hchi Hnorm) as Hd.
    destruct (Bartlett_entries w xs ys (length_draws _ _ _ _ Hchi)
                (length_draws _ _ _ _ Hnorm)) as (Hk & Hsq & Hdg & Hu & Hz).
    split; [repeat split; auto; apply Hsq|]. split; [|split].
    + intros c. eexists. split.
      * rewrite RandChol_run. fold w. rewrite Hd. reflexivity.
      * destruct c; [reflexivity|apply heap_fresh].
    + intros x Hx.
      pose proof (RandSym_run x s (xs, ys) r2) as HR. cbv zeta in HR.
      cbn [fst snd] in HR. fold w A in HR.
      destruct x as [l0|].
      * destruct Hx as (xv & Hl & Hord). exists l0. split; [|reflexivity].
        rewrite HR; [| rewrite Hl; eauto | exact Hd]. rewrite Hl. simpl.
        assert (Hchk : negb (Symmetric xv =? 0)
                       && negb (Symmetric xv =? Size cX) = false).
        { destruct Hord as [-> | ->]; [reflexivity|].
          rewrite Z.eqb_refl. apply andb_false_r. }
        subst cX. rewrite Hchk. reflexivity.
      * exists (fresh (dom (syms s))). split; [|apply heap_fresh].
        rewrite HR; [reflexivity|exact I|exact Hd].
    + intros l0 xv Hl H0 HS.
      pose proof (RandSym_run (Some l0) s (xs, ys) r2) as HR. cbv zeta in HR.
      cbn [fst snd] in HR. fold w A in HR.
      rewrite HR; [| rewrite Hl; eauto | exact Hd]. rewrite Hl. simpl.
      apply Z.eqb_neq in H0, HS. subst cX. rewrite H0, HS. reflexivity.
  - intros o r' Hd Ho c x. split.
    + rewrite RandChol_run. fold w. rewrite Hd.
      destruct o as [p|msg|]; [exfalso; exact (Ho p eq_refl)| |]; reflexivity.
    + exact (RandSym_fails x s o r' Hd Ho).
Qed.

(** ** Density as a probability *)

Lemma logProbSymChol_returns cholX s :
  exists l, logProbSymChol cholX s = (Ok l, s).
Proof.
  run. destruct (SolveCholesky _ _) as [y [e|]]; eauto.
Qed.

Lemma LogProbSym_returns x s :
  Symmetric x = dim (wish s) -> exists l, LogProbSym x s = (Ok l, s).
Proof.
  intros Hd. destruct (Factorize x) as [c ok] eqn:Hf. destruct ok.
  - rewrite (LogProbSym_factorized x c s Hd Hf). apply logProbSymChol_returns.
  - exists Inf_neg. apply LogProbSym_not_pd; [exact Hd|]. rewrite Hf. reflexivity.
Qed.

(** C6, as the code has it.  With [math.Exp] sending negative infinity to
    zero and every number that is not NaN to a non-negative number: for a
    matrix [X] of the order of the distribution, [LogProbSym] returns some
    [l] and [ProbSym] returns [Exp l], in the same state; [ProbSym(X) >= 0]
    whenever [l] is not NaN; and [ProbSym(X)] is exactly zero when the
    factorisation of [X] fails. *)
Theorem ProbSym_exp_LogProbSym (s : State) (x : SymDense) :
  Exp Inf_neg = 0%float ->
  (forall y, PrimFloat.is_nan y = false -> (0 <=? Exp y)%float = true) ->
  Symmetric x = dim (wish s) ->
  exists l,
    LogProbSym x s = (Ok l, s) /\
    ProbSym x s = (Ok (Exp l), s) /\
    (PrimFloat.is_nan l = false -> (0 <=? Exp l)%float = true) /\
    ((Factorize x).2 = false -> ProbSym x s = (Ok 0%float, s)).
Proof.
  intros Hinf Hpos Hd. destruct (LogProbSym_returns x s Hd) as [l Hl].
  exists l. split; [exact Hl|]. split; [|split].
  - rewrite ProbSym_exp, Hl. reflexivity.
  - apply Hpos.
  - intros Hf. rewrite ProbSym_exp.
    rewrite (LogProbSym_not_pd x s Hd Hf). simpl. rewrite Hinf. reflexivity.
Qed.

(** ** Degrees of freedom of the diagonal draws *)

(** X13.  For a distribution built by [NewWishart] with a [nu] that is not
    NaN, from a matrix whose order fits a Go [int], in every state it can
    reach: the chi-squared samplers [RandChol] calls are those of
    parameter [nu - float64(i)] for the rows [i] of [0..dim-1], every one
    of these parameters is strictly positive, and the outcome of
    [RandChol] is the outcome of running them and then the normal
    samplers. *)
Theorem RandChol_chi_dof_positive vm nu0 src0 w0 (s : State) :
  constructed vm nu0 src0 w0 ->
  Symmetric vm <= 2 ^ 63 - 1 ->
  PrimFloat.is_nan nu0 = false ->
  reachable w0 s ->
  chi_samplers (wish s)
  = (fun i => ChiSquared_Rand (nu0 - float64_of_int i) src0)
      <$> seqZ 0 (Symmetric vm) /\
  (forall i, 0 <= i < Symmetric vm ->
     (0 <? nu0 - float64_of_int i)%float = true) /\
  forall c,
    (RandChol c s).1
    = Result_map (fun _ => match c with
                           | Some l0 => l0
                           | None => fresh (dom (chols s))
                           end)
        (Bartlett_draws (wish s) (rng s)).1.
Proof.
  intros Hc Hint Hnan Hr.
  destruct (constructed_fields _ _ _ _ Hc) as (Hle & _ & _ & Hw).
  destruct (reachable_fields _ _ Hr) as (Hnu & Hdim & _ & _ & _ & Hsrc).
  rewrite Hw in Hnu, Hdim, Hsrc. simpl in Hnu, Hdim, Hsrc.
  split; [|split].
  - unfold chi_samplers, chi_K. rewrite Hnu, Hdim, Hsrc. reflexivity.
  - intros i Hi.
    apply (F64.chi_dof_positive nu0 (Symmetric vm) i); [lia|lia|exact Hle|exact Hnan].
  - intros c. rewrite RandChol_run.
    destruct (Bartlett_draws (wish s) (rng s)) as [[p|msg|] r']; reflexivity.
Qed.

End Properties.

(** * Concrete runs

    The theorems at the inputs of [Demo], over the reference
    implementation. *)

Section Runs.
#[local] Existing Instance Ref.impl.
#[local] Existing Instance Ref.consts.
Local Open Scope float_scope.

(** Closes [l = r] for closed [l] by evaluating [l]. *)
Ltac eval_refl :=
  lazymatch goal with
  | |- ?l = ?r =>
      let x := eval vm_compute in l in
      unify r x; exact (@eq_refl _ x)
  end.

(** Closes [l = true -> False] and the like for closed [l] that
    evaluates to the other boolean. *)
Ltac eval_refl_neq :=
  lazymatch goal with
  | |- ?l = ?r -> _ =>
      let x := eval vm_compute in l in
      let y := eval vm_compute in r in
      change (x = y -> False); discriminate
  end.

(** The reference [exp] meets the two facts about [math.Exp] that the
    density needs. *)
Lemma Ref_exp_neg_infinity : Ref.exp Inf_neg = 0.
Proof. eval_refl. Qed.

Lemma Ref_exp_nonneg y : PrimFloat.is_nan y = false -> (0 <=? Ref.exp y) = true.
Proof.
  intros H. unfold Ref.exp. rewrite H.
  destruct (y <? -745.25); [reflexivity|].
  destruct (709.75 <? y); [reflexivity|].
  match goal with |- (0 <=? (if 0 <=? ?r then _ else _)) = true =>
    destruct (0 <=? r) eqn:E; [exact E|reflexivity] end.
Qed.

Lemma constructed_w0 : constructed Demo.V Demo.nu0 tt Demo.w0.
Proof. reflexivity. Qed.
Lemma constructed_wone : constructed Demo.Vone 3 tt Demo.wone.
Proof. reflexivity. Qed.

Lemma logProb_formula_witness :
  LogProbSym Demo.X Demo.s0 = (Ok (-0x1.e88b9cf86b214p+2), Demo.s0).
Proof.
  edestruct (logProb_formula (C:=Ref.impl) Demo.V Demo.nu0 tt Demo.w0 Demo.s0 Demo.X) as [H _].
  - exact constructed_w0.
  - apply reach_new.
  - reflexivity.
  - eval_refl.
  - eval_refl.
  - rewrite H. eval_refl.
Defined.

Lemma RandChol_bartlett_witness :
  (RandChol None Demo.s1).1 = Ok 1%positive /\
  (RandSym (Some 1%positive) Demo.s1).1 = Ok 1%positive /\
  (RandSym (Some 1%positive) Demo.s2).1 = Panic ErrShape /\
  (RandChol None Demo.snan).1 = Panic "unreachable" /\
  (RandChol None Demo.sinf).1 = NoReturn.
Proof.
  pose proof (RandChol_bartlett (C:=Ref.impl) Demo.V Demo.nu0 tt Demo.w0
                Demo.s1 constructed_w0 (reach_new _ _ _ _)) as H1.
  cbv zeta in H1. destruct H1 as (_ & H1 & _).
  edestruct H1 as (_ & _ & Hs1 & _); [eval_refl|eval_refl|].
  destruct (Hs1 (Some 1%positive)) as (l1 & Hrun1 & Hl1).
  { exists (NewSymDense 2). split; [eval_refl|]. right. reflexivity. }
  pose proof (RandChol_bartlett (C:=Ref.impl) Demo.V Demo.nu0 tt Demo.w0
                Demo.s2 constructed_w0 (reach_new _ _ _ _)) as H2.
  cbv zeta in H2. destruct H2 as (_ & H2 & _).
  edestruct H2 as (_ & _ & _ & Hp2); [eval_refl|eval_refl|].
  pose proof (RandChol_bartlett (C:=Ref.impl) Demo.Vid nan tt Demo.wnan
                Demo.snan eq_refl (reach_new _ _ _ _)) as H3.
  cbv zeta in H3. destruct H3 as (_ & _ & H3).
  assert (Hd3 : Bartlett_draws (wish Demo.snan) (rng Demo.snan)
                = (Panic "unreachable", 42%Z)) by eval_refl.
  destruct (H3 _ _ Hd3 ltac:(intros p; discriminate) None None) as [Hr3 _].
  split; [eval_refl|]. split; [rewrite Hrun1, Hl1; reflexivity|].
  split; [|split; [rewrite Hr3; reflexivity|eval_refl]].
  rewrite (Hp2 1%positive Demo.X1); [reflexivity|eval_refl| |];
    intros E; apply (f_equal (Z.eqb 1)) in E; discriminate E.
Defined.

Lemma MeanSym_mean_witness :
  exists l s',
    MeanSym None Demo.sone = (Ok l, s') /\
    syms s' !! l = Some (mkSym [[0x1.8000000000002p+2]]) /\
    v (wish s') = Some (mkSym [[0x1.0000000000001p+1]]).
Proof.
  destruct (MeanSym_mean (C:=Ref.impl) Demo.Vone 3 tt Demo.wone Demo.sone None)
    as (l & xm & s' & Hrun & [_ Hxm] & Hsy & _ & _ & _ & Hv & _).
  - exact constructed_wone.
  - apply reach_new.
  - split; [reflexivity|]. repeat constructor.
  - exact I.
  - exists l, s'. split; [exact Hrun|]. split.
    + rewrite Hsy, heap_lookup_insert, Hxm. eval_refl.
    + rewrite Hv. eval_refl.
Defined.

Lemma NewWishart_cases_witness :
  NewWishart Demo.V 1 tt = Panic "wishart: nu must be greater than dim-1" /\
  NewWishart Demo.notPD 3 tt = Ok (None, false) /\
  NewWishart Demo.V Demo.nu0 tt = Ok (Some Demo.w0, true) /\
  NewWishart Demo.Vempty 0 tt = Panic badCholesky.
Proof.
  split; [|split; [|split]].
  - apply (NewWishart_cases (C:=Ref.impl) Demo.V 1 tt). eval_refl.
  - apply (NewWishart_cases (C:=Ref.impl) Demo.notPD 3 tt); eval_refl.
  - destruct (NewWishart_cases (C:=Ref.impl) Demo.V Demo.nu0 tt)
      as (_ & _ & _ & H & _).
    etransitivity; [apply H; eval_refl|]. eval_refl.
  - apply (NewWishart_cases (C:=Ref.impl) Demo.Vempty 0 tt); eval_refl.
Defined.

Lemma logProb_neg_infinity_witness :
  LogProbSym Demo.notPD Demo.s0 = (Ok Inf_neg, Demo.s0) /\
  LogProbSym Demo.I2 Demo.sill = (Ok Inf_neg, Demo.sill).
Proof.
  split.
  - apply (logProb_neg_infinity Demo.s0); eval_refl.
  - destruct (logProb_neg_infinity Demo.sill) as (_ & _ & H & _).
    eapply H; eval_refl.
Defined.

Lemma ProbSym_exp_LogProbSym_witness :
  ProbSym Demo.X1 Demo.sone = (Ok 0x1.3bc2e5916eb0ep-4, Demo.sone) /\
  ProbSym Demo.notPD Demo.s0 = (Ok 0, Demo.s0).
Proof.
  split.
  - destruct (ProbSym_exp_LogProbSym Demo.sone Demo.X1 Ref_exp_neg_infinity
                Ref_exp_nonneg eq_refl) as (l & Hl & Hp & _).
    rewrite Hp.
    assert (E : LogProbSym Demo.X1 Demo.sone
                = (Ok (-0x1.48092932d4022p+1), Demo.sone)) by eval_refl.
    rewrite E in Hl. injection Hl as <-. eval_refl.
  - destruct (ProbSym_exp_LogProbSym Demo.s0 Demo.notPD Ref_exp_neg_infinity
                Ref_exp_nonneg eq_refl) as (l & _ & _ & _ & H).
    apply H. eval_refl.
Defined.

Lemma LogProbSymChol_agrees_witness :
  LogProbSymChol (Factorize Demo.X).1 Demo.s0 = LogProbSym Demo.X Demo.s0.
Proof.
  apply (LogProbSymChol_agrees Demo.s0 Demo.X); eval_refl.
Defined.

Lemma dimension_mismatch_panics_witness :
  MeanSym (Some 1%positive) Demo.s2 = (Panic badDim, Demo.s2) /\
  LogProbSym Demo.X1 Demo.s0 = (Panic "dimension mismatch", Demo.s0) /\
  LogProbSymChol (Factorize Demo.X1).1 Demo.s0 = (Panic badDim, Demo.s0).
Proof.
  destruct (dimension_mismatch_panics Demo.s2) as (H1 & _).
  destruct (dimension_mismatch_panics Demo.s0) as (_ & H2 & H3 & _).
  split; [|split].
  - apply (H1 1%positive Demo.X1); [eval_refl|]. discriminate.
  - apply H2. discriminate.
  - apply H3; [eval_refl|]. discriminate.
Defined.

Lemma RandChol_chi_dof_positive_witness :
  (0 <? Demo.nu0 - float64_of_int 1) = true /\
  (RandChol None Demo.s0).1 = Ok 1%positive.
Proof.
  destruct (RandChol_chi_dof_positive (C:=Ref.impl) Demo.V Demo.nu0 tt Demo.w0
              Demo.s0) as (_ & Hpos & Hrun).
  - exact constructed_w0.
  - discriminate.
  - reflexivity.
  - apply reach_new.
  - split; [apply (Hpos 1%Z); split; [discriminate|reflexivity]|].
    rewrite Hrun. eval_refl.
Defined.

Lemma receiver_frame_witness :
  wish (exec (CallRandChol None) Demo.s0) = Demo.w0 /\
  wish (exec (CallMeanSym None) (exec (CallMeanSym None) Demo.s0))
  = wish (exec (CallMeanSym None) Demo.s0).
Proof.
  split.
  - apply (receiver_frame (CallRandChol None) Demo.s0).
  - apply (receiver_frame (CallMeanSym None) (exec (CallMeanSym None) Demo.s0)).
    eval_refl.
Defined.

(** C6 as stated fails: a valid distribution ([nu] above [dim - 1]) and a
    positive definite [X] of its order for which the log-density overflows
    to NaN, so that [ProbSym(X) >= 0] is false. *)
Lemma ProbSym_nonneg_counterexample :
  constructed Demo.Vbig Demo.nubig tt Demo.wbig /\
  (float64_of_int (Symmetric Demo.Vbig - 1) <? Demo.nubig) = true /\
  Symmetric Demo.Vbig = dim Demo.wbig /\
  (Factorize Demo.Vbig).2 = true /\
  exists r, ProbSym Demo.Vbig Demo.sbig = (Ok r, Demo.sbig) /\
            (0 <=? r) = false.
Proof.
  split; [reflexivity|]. split; [eval_refl|].
  split; [reflexivity|]. split; [eval_refl|].
  exists nan. split; [eval_refl|reflexivity].
Qed.

(** C1 as stated fails: a distribution built from a positive definite
    [V] whose factorisation is too ill-conditioned for the solve, and a
    positive definite [X] of its order: the solve reports an error and
    [LogProbSym(X)] is negative infinity, not the value of the formula,
    which is finite. *)
Lemma logProb_formula_counterexample :
  constructed Demo.Vill 3 tt Demo.will /\
  Symmetric Demo.I2 = Symmetric Demo.Vill /\
  (Factorize Demo.I2).2 = true /\
  let cholX := (Factorize Demo.I2).1 in
  let U := UFromCholesky cholX in
  let y := (SolveCholesky (Factorize Demo.Vill).1 (TriT U)).1 in
  let r := 0.5 * ((3 - float64_of_int 2 - 1) * LogDet cholX
                  - Trace (Mul y (tri_rows U))
                  - 3 * float64_of_int 2 * Ln2
                  - 3 * LogDet (Factorize Demo.Vill).1)
           - MvLgamma (0.5 * 3) 2 in
  LogProbSym Demo.I2 Demo.sill = (Ok Inf_neg, Demo.sill) /\
  PrimFloat.is_infinity r = false /\
  LogProbSym Demo.I2 Demo.sill <> (Ok r, Demo.sill).
Proof.
  split; [reflexivity|]. split; [reflexivity|]. split; [eval_refl|].
  cbv zeta.
  assert (E : LogProbSym Demo.I2 Demo.sill = (Ok Inf_neg, Demo.sill))
    by eval_refl.
  split; [exact E|]. split; [eval_refl|].
  rewrite E. intros H.
  apply (f_equal (fun p => match p.1 with
                           | Ok l => PrimFloat.is_infinity l
                           | _ => false
                           end)) in H.
  revert H. eval_refl_neq.
Qed.

(** C9.  At [V = [[1]]] and a NaN [nu], [NewWishart] returns a
    distribution, the test [nu <= float64(dim-1)] being false on NaN; the
    only chi-squared sampler [RandChol] then calls has the parameter
    [nu - float64(0)], which is NaN and not strictly positive, and the
    sampler panics on it. *)
Lemma chi_dof_nan_run :
  NewWishart Demo.Vid nan tt = Ok (Some Demo.wnan, true) /\
  (nan <=? float64_of_int (Symmetric Demo.Vid - 1)) = false /\
  chi_samplers Demo.wnan = [ChiSquared_Rand (chi_K Demo.wnan 0) tt] /\
  PrimFloat.is_nan (chi_K Demo.wnan 0) = true /\
  (0 <? chi_K Demo.wnan 0) = false /\
  RandChol None Demo.snan = (Panic "unreachable", Demo.snan).
Proof.
  split; [reflexivity|]. split; [reflexivity|]. split; [reflexivity|].
  split; [reflexivity|]. split; [reflexivity|]. eval_refl.
Qed.

End Runs.

(** * Further properties of the methods

    What the code shows beyond the sentences of the specification: what a
    call leaves alone, how calls compose, and the behaviour at the edges of
    the degrees of freedom. *)

(** ** Binary64: NaN operands and integers below [2^53] *)

Lemma is_nan_Prim2SF (x : float64) :
  Prim2SF x = S754_nan -> PrimFloat.is_nan x = true.
Proof.
  intros H. destruct (PrimFloat.is_nan x) eqn:E; [reflexivity|].
  exfalso. exact (F64.Prim2SF_not_nan x E H).
Qed.

Lemma nan_sub_l (x y : float64) :
  PrimFloat.is_nan x = true -> PrimFloat.is_nan (x - y)%float = true.
Proof.
  intros H. apply is_nan_Prim2SF.
  rewrite FloatAxioms.sub_spec, (F64.Prim2SF_nan x H). reflexivity.
Qed.

Lemma nan_mul_l (x y : float64) :
  PrimFloat.is_nan x = true -> PrimFloat.is_nan (x * y)%float = true.
Proof.
  intros H. apply is_nan_Prim2SF.
  rewrite FloatAxioms.mul_spec, (F64.Prim2SF_nan x H). reflexivity.
Qed.

Lemma nan_mul_r (x y : float64) :
  PrimFloat.is_nan y = true -> PrimFloat.is_nan (x * y)%float = true.
Proof.
  intros H. apply is_nan_Prim2SF.
  rewrite FloatAxioms.mul_spec, (F64.Prim2SF_nan y H).
  destruct (Prim2SF x); reflexivity.
Qed.

(** Below [2^53] the conversion is exact, so the order of the integers is
    the order of their conversions. *)
Lemma of_int_compare i j :
  0 <= i < 2 ^ 53 -> 0 <= j < 2 ^ 53 ->
  SFcompare (Prim2SF (float64_of_int i)) (Prim2SF (float64_of_int j))
  = Some (i ?= j).
Proof.
  intros Hi Hj.
  assert (Hs : forall z, 0 < z < 2 ^ 53 -> rnd53 z = z).
  { intros z Hz. apply F64.rnd53_small; [lia|].
    assert (Z.log2 z < 53) by (apply Z.log2_lt_pow2; lia). lia. }
  destruct (F64.of_int_shape i ltac:(lia))
    as [[-> Hi0]|(Mi & Ei & -> & Hci & Hvi & Hi0)];
    destruct (F64.of_int_shape j ltac:(lia))
      as [[-> Hj0]|(Mj & Ej & -> & Hcj & Hvj & Hj0)]; subst.
  - reflexivity.
  - destruct j; try lia. reflexivity.
  - destruct i; try lia. reflexivity.
  - rewrite (F64.SFcompare_pos_finite _ _ _ _ Hci Hcj). f_equal.
    rewrite Hvi, Hvj, (Hs i), (Hs j) by lia.
    assert (Hc : 0 < 2 ^ (0 - -1074)) by (apply Z.pow_pos_nonneg; lia).
    destruct (Z.compare_spec i j) as [->|Hlt|Hgt].
    + apply Z.compare_refl.
    + apply Z.compare_lt_iff. nia.
    + apply Z.compare_gt_iff. nia.
Qed.

Lemma of_int_leb i j :
  0 <= i < 2 ^ 53 -> 0 <= j < 2 ^ 53 ->
  (float64_of_int i <=? float64_of_int j)%float = (i <=? j).
Proof.
  intros Hi Hj. rewrite FloatAxioms.leb_spec. unfold SFleb.
  rewrite (of_int_compare i j Hi Hj). unfold Z.leb.
  destruct (i ?= j); reflexivity.
Qed.

(** No conversion of a non-negative integer is below [float64(-1)]. *)
Lemma of_int_leb_minus_one i :
  0 <= i < 2 ^ 63 ->
  (float64_of_int i <=? float64_of_int (-1))%float = false.
Proof.
  intros Hi. rewrite FloatAxioms.leb_spec. unfold SFleb.
  pose proof (F64.of_int_nonneg i Hi) as Hn.
  change (Prim2SF (float64_of_int (-1)))
    with (S754_finite true 4503599627370496 (-52)).
  set (a := Prim2SF (float64_of_int i)) in *. clearbody a. clear Hi.
  destruct a as [[|]|[|]| |[|] m e]; try (exfalso; exact Hn); reflexivity.
Qed.

(** ** The samplers of one [RandChol] call *)

Lemma length_upper_rows d k : forall a,
  0 <= a -> a + Z.of_nat k = d ->
  2 * Z.of_nat (length (seqZ a (Z.of_nat k) ≫= fun i =>
                          (fun j => (i, j)) <$> seqZ (i + 1) (d - (i + 1))))
  = Z.of_nat k * (Z.of_nat k - 1).
Proof.
  induction k as [|k IH]; intros a Ha Hd.
  - reflexivity.
  - rewrite Nat2Z.inj_succ, <- Z.add_1_r.
    rewrite seqZ_cons by lia.
    replace (Z.pred (Z.of_nat k + 1)) with (Z.of_nat k) by lia.
    rewrite bind_cons, length_app, length_fmap, length_seqZ.
    rewrite Nat2Z.inj_add. rewrite Z.mul_add_distr_l.
    replace (Z.succ a) with (a + 1) by lia.
    rewrite (IH (a + 1)) by lia. lia.
Qed.

Lemma length_upper_pos d :
  0 <= d -> 2 * Z.of_nat (length (upper_pos d)) = d * (d - 1).
Proof.
  intros Hd. unfold upper_pos.
  rewrite <- (Z2Nat.id d) at 1 by lia.
  rewrite (length_upper_rows d (Z.to_nat d) 0) by lia. lia.
Qed.

Section Further.
Context `{C : Collaborators} `{P : PackageConsts}.

Ltac run :=
  unfold MeanSym, ProbSym, LogProbSym, LogProbSymChol, logProbSymChol, setV,
    new_sym, load_sym, store_sym, new_chol, load_chol, store_chol,
    set_wish, set_syms, set_chols, draw, bind, ret, gets, panic, modify, lift;
  simpl.

Lemma draws_app (fs gs : list Sampler) r :
  draws (fs ++ gs) r
  = match draws fs r with
    | (Ok xs, r1) => (Result_map (app xs) (draws gs r1).1, (draws gs r1).2)
    | (Panic msg, r1) => (Panic msg, r1)
    | (NoReturn, r1) => (NoReturn, r1)
    end.
Proof.
  revert r. induction fs as [|f fs IH]; intros r.
  - simpl. destruct (draws gs r) as [[ys|msg|] r2]; reflexivity.
  - rewrite <- app_comm_cons, !draws_cons.
    destruct (f r) as [[x|msg|] r1]; try reflexivity.
    rewrite IH. destruct (draws fs r1) as [[xs|msg|] r2]; try reflexivity.
    simpl. destruct (draws gs r2) as [[ys|msg|] r3]; reflexivity.
Qed.

(** The two phases of the draws of [RandChol] are one run of the
    chi-squared samplers followed by the normal samplers. *)
Lemma Bartlett_draws_app w r :
  (Bartlett_draws w r).2 = (draws (chi_samplers w ++ normal_samplers w) r).2 /\
  forall (l : loc),
    Result_map (fun _ => l) (Bartlett_draws w r).1
    = Result_map (fun _ => l) (draws (chi_samplers w ++ normal_samplers w) r).1.
Proof.
  rewrite Bartlett_draws_cases, draws_app.
  destruct (draws (chi_samplers w) r) as [[xs|msg|] r1]; auto.
  simpl. destruct (draws (normal_samplers w) r1) as [[ys|msg|] r2]; auto.
Qed.

(** ** What the density methods leave alone *)

(** X1.  [LogProbSym], [ProbSym], [LogProbSymChol] and the core
    [logProbSymChol] are read-only: whatever the argument and whether they
    return or panic, the receiver, every buffer and the random sources are
    as before the call. *)
Theorem density_read_only (s : State) (x : SymDense) (cholX : Cholesky) :
  (logProbSymChol cholX s).2 = s /\
  (LogProbSym x s).2 = s /\
  (LogProbSymChol cholX s).2 = s /\
  (ProbSym x s).2 = s.
Proof.
  assert (H0 : forall c, (logProbSymChol c s).2 = s).
  { intros c. destruct (logProbSymChol_returns c s) as [l ->]. reflexivity. }
  assert (H1 : (LogProbSym x s).2 = s).
  { unfold LogProbSym. unfold bind at 1. simpl.
    destruct (negb _); [reflexivity|].
    destruct (Factorize x) as [c ok]. destruct ok; simpl; [apply H0|reflexivity]. }
  split; [apply H0|]. split; [exact H1|]. split.
  - unfold LogProbSymChol. unfold bind at 1. simpl.
    destruct (negb (Valid cholX)); [reflexivity|].
    destruct (negb _); [reflexivity|apply H0].
  - rewrite ProbSym_exp. exact H1.
Qed.

(** The value of the log-density is a function of [nu], [dim], the factor
    of [V] and its log-determinant. *)
Lemma logProbSymChol_fields cholX (s s' : State) :
  nu (wish s) = nu (wish s') -> dim (wish s) = dim (wish s') ->
  cholv (wish s) = cholv (wish s') -> logdetv (wish s) = logdetv (wish s') ->
  (logProbSymChol cholX s).1 = (logProbSymChol cholX s').1.
Proof.
  intros Hn Hd Hc Hl. run. rewrite Hn, Hd, Hc, Hl.
  destruct (SolveCholesky _ _) as [y [e|]]; reflexivity.
Qed.

Lemma LogProbSym_fields x (s s' : State) :
  nu (wish s) = nu (wish s') -> dim (wish s) = dim (wish s') ->
  cholv (wish s) = cholv (wish s') -> logdetv (wish s) = logdetv (wish s') ->
  (LogProbSym x s).1 = (LogProbSym x s').1.
Proof.
  intros Hn Hd Hc Hl. unfold LogProbSym, bind, gets. simpl.
  rewrite Hd. destruct (negb _); [reflexivity|].
  destruct (Factorize x) as [c ok]. destruct ok; simpl; [|reflexivity].
  apply logProbSymChol_fields; assumption.
Qed.

Lemma LogProbSymChol_fields cholX (s s' : State) :
  nu (wish s) = nu (wish s') -> dim (wish s) = dim (wish s') ->
  cholv (wish s) = cholv (wish s') -> logdetv (wish s) = logdetv (wish s') ->
  (LogProbSymChol cholX s).1 = (LogProbSymChol cholX s').1.
Proof.
  intros Hn Hd Hc Hl. unfold LogProbSymChol, bind, gets. simpl.
  rewrite Hd. destruct (negb (Valid cholX)); [reflexivity|].
  destruct (negb _); [reflexivity|].
  apply logProbSymChol_fields; assumption.
Qed.

(** X2.  The density does not depend on the history of the distribution:
    in any two states reached from the same constructed distribution,
    whatever calls were made and whatever the buffers and sources hold,
    [LogProbSym], [ProbSym] and [LogProbSymChol] give the same outcome
    (value or panic) on the same argument. *)
Theorem density_history_independent w0 (s1 s2 : State) x cholX :
  reachable w0 s1 -> reachable w0 s2 ->
  (LogProbSym x s1).1 = (LogProbSym x s2).1 /\
  (ProbSym x s1).1 = (ProbSym x s2).1 /\
  (LogProbSymChol cholX s1).1 = (LogProbSymChol cholX s2).1.
Proof.
  intros H1 H2.
  destruct (reachable_fields _ _ H1) as (Hn1 & Hd1 & Hc1 & Hl1 & _).
  destruct (reachable_fields _ _ H2) as (Hn2 & Hd2 & Hc2 & Hl2 & _).
  assert (HL : (LogProbSym x s1).1 = (LogProbSym x s2).1)
    by (apply LogProbSym_fields; congruence).
  split; [exact HL|]. split.
  - rewrite !ProbSym_exp. simpl. rewrite HL. reflexivity.
  - apply LogProbSymChol_fields; congruence.
Qed.

(** X12.  On a distribution built by [NewWishart], in any state it can
    reach: [LogProbSym] and [ProbSym] panic exactly when the order of the
    matrix differs from the order of the scale matrix; [LogProbSymChol]
    panics exactly when its argument holds no valid factorisation or the
    size of the factorisation differs from that order; a failed
    factorisation of the matrix or a failed solve is never a panic. *)
Theorem density_panics_iff vm nu0 src0 w0 (s : State) (x : SymDense)
    (cholX : Cholesky) :
  constructed vm nu0 src0 w0 ->
  reachable w0 s ->
  ((exists msg, (LogProbSym x s).1 = Panic msg) <-> Symmetric x <> Symmetric vm) /\
  ((exists msg, (ProbSym x s).1 = Panic msg) <-> Symmetric x <> Symmetric vm) /\
  ((exists msg, (LogProbSymChol cholX s).1 = Panic msg)
   <-> Valid cholX = false \/ Size cholX <> Symmetric vm).
Proof.
  intros Hc Hr.
  destruct (constructed_fields _ _ _ _ Hc) as (_ & _ & _ & Hw0).
  destruct (reachable_fields _ _ Hr) as (_ & Hdim & _).
  rewrite Hw0 in Hdim. simpl in Hdim. rewrite <- Hdim.
  assert (HL : (exists msg, (LogProbSym x s).1 = Panic msg)
               <-> Symmetric x <> dim (wish s)).
  { split.
    - intros [msg Hp] Hd. destruct (LogProbSym_returns x s Hd) as [l Hl].
      rewrite Hl in Hp. discriminate.
    - intros Hd. exists "dimension mismatch".
      unfold LogProbSym, bind, gets. simpl.
      apply Z.eqb_neq in Hd. rewrite Hd. reflexivity. }
  split; [exact HL|]. split.
  - rewrite <- HL, ProbSym_exp. simpl.
    destruct (LogProbSym x s).1 as [l|msg|]; split; intros [m Hm];
      try discriminate; eauto.
  - split.
    + intros [msg Hp].
      destruct (Valid cholX) eqn:Hv; [right|left; reflexivity].
      intros Hd. rewrite (LogProbSymChol_sized cholX s Hv Hd) in Hp.
      destruct (logProbSymChol_returns cholX s) as [l Hl].
      rewrite Hl in Hp. discriminate.
    + intros Hd. unfold LogProbSymChol, bind, gets. simpl.
      destruct (Valid cholX); simpl; [|eauto].
      destruct Hd as [Hd|Hd]; [discriminate|].
      apply Z.eqb_neq in Hd. rewrite Hd. simpl. eauto.
Qed.

(** ** [MeanSym] on any state *)

(** The outcome of [MeanSym] on a caller's buffer, case by case. *)
Lemma MeanSym_some_run l (s : State) :
  MeanSym (Some l) s
  = match syms s !! l with
    | None => (Panic nilDeref, s)
    | Some xv =>
        if negb (Symmetric xv =? dim (wish s)) then (Panic badDim, s)
        else match v (wish (setV s).2) with
             | None => (Panic nilDeref, s)
             | Some V =>
                 (Ok l, mkState (wish (setV s).2)
                          (<[l := ScaleSym (nu (wish s)) (CopySym xv V)]> (syms s))
                          (chols s) (rng s))
             end
    end.
Proof.
  destruct (syms s !! l) as [xv|] eqn:Hl.
  - destruct (Symmetric xv =? dim (wish s)) eqn:Hd; simpl.
    + apply Z.eqb_eq in Hd.
      destruct (v (wish (setV s).2)) as [V|] eqn:HV.
      * apply (MeanSym_buffer l xv s V Hl Hd HV).
      * rewrite setV_spec in HV.
        unfold MeanSym. unfold bind at 1. simpl. unfold bind at 1. simpl.
        unfold bind at 1, load_sym at 1, bind at 1. simpl. rewrite Hl. simpl.
        rewrite Hd, Z.eqb_refl. simpl.
        unfold bind at 1. rewrite setV_spec.
        destruct (once (wish s)) eqn:Ho; simpl in *; [|discriminate].
        run. rewrite HV. destruct s; reflexivity.
    + run. rewrite Hl. simpl. rewrite Hd. reflexivity.
  - run. rewrite Hl. reflexivity.
Qed.

Lemma setV_frame (s : State) :
  syms (setV s).2 = syms s /\ chols (setV s).2 = chols s /\
  rng (setV s).2 = rng s.
Proof. rewrite setV_spec. simpl. destruct (once (wish s)); auto. Qed.

(** [MeanSym] reads the receiver and the symmetric buffers only, and hands
    the Cholesky buffers and the sources through. *)
Lemma MeanSym_params x (s : State) ch r :
  MeanSym x (mkState (wish s) (syms s) ch r)
  = ((MeanSym x s).1,
     mkState (wish (MeanSym x s).2) (syms (MeanSym x s).2) ch r).
Proof.
  assert (Hsome : forall l (s : State),
    MeanSym (Some l) (mkState (wish s) (syms s) ch r)
    = ((MeanSym (Some l) s).1,
       mkState (wish (MeanSym (Some l) s).2) (syms (MeanSym (Some l) s).2) ch r)).
  { intros l s0. rewrite !MeanSym_some_run. simpl.
    destruct (syms s0 !! l) as [xv|]; [|reflexivity].
    destruct (negb _); [reflexivity|].
    rewrite !setV_spec. simpl.
    destruct (once (wish s0)); simpl;
      destruct (v (wish s0)); reflexivity. }
  destruct x as [l|]; [apply Hsome|].
  rewrite !MeanSym_nil. simpl. unfold with_syms.
  apply (Hsome _ (mkState (wish s) _ (chols s) (rng s))).
Qed.

Lemma MeanSym_some_frame l (s : State) :
  chols (MeanSym (Some l) s).2 = chols s /\
  rng (MeanSym (Some l) s).2 = rng s /\
  forall l', l' <> l -> syms (MeanSym (Some l) s).2 !! l' = syms s !! l'.
Proof.
  rewrite MeanSym_some_run.
  destruct (syms s !! l) as [xv|]; [|auto].
  destruct (negb _); [auto|].
  destruct (v (wish (setV s).2)); [|auto]. simpl.
  split; [reflexivity|]. split; [reflexivity|].
  intros l' Hne. apply lookup_insert_ne. congruence.
Qed.

(** X3.  In every state and whether it returns or panics, [MeanSym] leaves
    the Cholesky buffers and the random sources as they were, and writes
    no symmetric buffer but its target: with a buffer [l], every other
    address keeps its content; with nil, every buffer that existed before
    the call keeps its content. *)
Theorem MeanSym_frame (x : option loc) (s : State) :
  let s' := (MeanSym x s).2 in
  chols s' = chols s /\ rng s' = rng s /\
  forall l', match x with
             | Some l => l' <> l
             | None => is_Some (syms s !! l')
             end ->
             syms s' !! l' = syms s !! l'.
Proof.
  intros s'. subst s'. destruct x as [l|].
  - apply MeanSym_some_frame.
  - rewrite MeanSym_nil.
    destruct (MeanSym_some_frame (fresh (dom (syms s)))
                (with_syms s (<[fresh (dom (syms s)) :=
                                  NewSymDense (dim (wish s))]> (syms s))))
      as (Hc & Hr & Hs).
    split; [exact Hc|]. split; [exact Hr|].
    intros l' [y Hy].
    assert (Hne : l' <> fresh (dom (syms s))).
    { intros ->. rewrite heap_fresh in Hy. discriminate. }
    rewrite (Hs l' Hne). simpl. apply lookup_insert_ne. congruence.
Qed.

(** ** The cache *)

(** X4.  In every state a constructed distribution can reach, the order is
    the order of the scale matrix, and the cache pointer is nil exactly
    while [once] has not fired; after it has fired the cache holds the
    matrix [FromCholesky] rebuilds from the factor kept at construction. *)
Theorem cache_invariant vm nu0 src0 w0 (s : State) :
  constructed vm nu0 src0 w0 ->
  reachable w0 s ->
  dim (wish s) = Symmetric vm /\ 0 <= dim (wish s) /\
  v (wish s) = if once (wish s)
               then Some (FromCholesky (Factorize vm).1) else None.
Proof.
  intros Hc Hr.
  destruct (constructed_fields _ _ _ _ Hc) as (_ & _ & _ & Hw0).
  destruct (reachable_wish _ _ Hr) as [-> | ->]; rewrite Hw0; simpl;
    (split; [reflexivity|]); (split; [unfold Symmetric; lia|reflexivity]).
Qed.

Lemma reachable_setV vm nu0 src0 w0 (s : State) :
  constructed vm nu0 src0 w0 ->
  reachable w0 s ->
  wish (setV s).2 = filled w0 /\
  v (wish (setV s).2) = Some (FromCholesky (Factorize vm).1) /\
  nu (wish s) = nu0 /\ dim (wish s) = Symmetric vm.
Proof.
  intros Hc Hr.
  destruct (constructed_fields _ _ _ _ Hc) as (_ & _ & _ & Hw0).
  rewrite setV_spec. subst w0.
  destruct (reachable_wish _ _ Hr) as [H|H]; rewrite H; simpl;
    rewrite ?H; simpl; auto.
Qed.

(** X5.  [MeanSym] never panics on a constructed distribution when called
    with nil or with a buffer of the order of the distribution, whatever
    matrix [FromCholesky] hands back for the cache: it returns the address
    of a matrix of the order of the distribution. *)
Theorem MeanSym_never_panics vm nu0 src0 w0 (s : State) (x : option loc) :
  constructed vm nu0 src0 w0 ->
  reachable w0 s ->
  match x with
  | None => True
  | Some l => exists xv, syms s !! l = Some xv /\ Symmetric xv = Symmetric vm
  end ->
  exists l xm s',
    MeanSym x s = (Ok l, s') /\
    match x with Some l0 => l = l0 | None => syms s !! l = None end /\
    syms s' !! l = Some xm /\ Symmetric xm = Symmetric vm.
Proof.
  intros Hc Hr Hx.
  assert (Hsome : forall l xv (s : State),
    reachable w0 s -> syms s !! l = Some xv -> Symmetric xv = Symmetric vm ->
    exists xm s', MeanSym (Some l) s = (Ok l, s') /\ syms s' !! l = Some xm /\
                  Symmetric xm = Symmetric vm).
  { intros l xv s0 Hr0 Hl Hd.
    destruct (reachable_setV _ _ _ _ _ Hc Hr0) as (_ & HV & _ & Hdim).
    rewrite MeanSym_some_run, Hl, Hd, Hdim, Z.eqb_refl, HV. simpl.
    eexists _, _. split; [reflexivity|]. simpl.
    split; [apply heap_lookup_insert|].
    rewrite Symmetric_ScaleSym, Symmetric_CopySym. exact Hd. }
  destruct x as [l|].
  - destruct Hx as (xv & Hl & Hd).
    destruct (Hsome l xv s Hr Hl Hd) as (xm & s' & H1 & H2 & H3).
    exists l, xm, s'. auto.
  - rewrite MeanSym_nil.
    edestruct (Hsome (fresh (dom (syms s))) (NewSymDense (dim (wish s))))
      as (xm & s' & H1 & H2 & H3);
      [| | | exists (fresh (dom (syms s))), xm, s';
             split; [exact H1|split; [apply heap_fresh|auto]]].
    + apply (reach_caller w0 s). exact Hr.
    + simpl. apply heap_lookup_insert.
    + destruct (reachable_setV _ _ _ _ _ Hc Hr) as (_ & _ & _ & Hdim).
      simpl. rewrite Symmetric_NewSymDense; rewrite Hdim;
        [reflexivity|unfold Symmetric; lia].
Qed.

Lemma square_ScaleSym f a n :
  square n (sym_rows a) -> square n (sym_rows (ScaleSym f a)).
Proof.
  intros [Hl Hrows]. unfold ScaleSym. simpl. split.
  - rewrite length_map. exact Hl.
  - apply Forall_map. eapply Forall_impl; [exact Hrows|].
    intros row Hrow. simpl. rewrite length_map. exact Hrow.
Qed.

(** X6.  Writing the mean into the same square buffer twice is the same as
    writing it once: the second call returns the same address and leaves
    receiver, buffers and sources as the first call left them; in
    particular the in-place scaling by [nu] does not compound. *)
Theorem MeanSym_idempotent vm nu0 src0 w0 (s : State) l xv :
  constructed vm nu0 src0 w0 ->
  reachable w0 s ->
  let d := length (sym_rows vm) in
  let Vd := FromCholesky (Factorize vm).1 in
  square d (sym_rows Vd) ->
  syms s !! l = Some xv ->
  square d (sym_rows xv) ->
  let s1 := (MeanSym (Some l) s).2 in
  MeanSym (Some l) s = (Ok l, s1) /\
  syms s1 !! l = Some (ScaleSym nu0 Vd) /\
  MeanSym (Some l) s1 = (Ok l, s1).
Proof.
  intros Hc Hr d Vd HV Hl Hxv s1.
  destruct (reachable_setV _ _ _ _ _ Hc Hr) as (Hfill & HVd & Hnu & Hdim).
  assert (Hr1 : reachable w0 s1) by exact (reach_call w0 (CallMeanSym (Some l)) s Hr).
  destruct (reachable_setV _ _ _ _ _ Hc Hr1) as (Hfill1 & HVd1 & Hnu1 & Hdim1).
  assert (Hord : forall a, square d (sym_rows a) -> Symmetric a = Symmetric vm).
  { intros a [Ha _]. unfold Symmetric. rewrite Ha. reflexivity. }
  assert (E1 : MeanSym (Some l) s
               = (Ok l, mkState (filled w0) (<[l := ScaleSym nu0 Vd]> (syms s))
                          (chols s) (rng s))).
  { rewrite (MeanSym_buffer l xv s Vd Hl); [| rewrite Hdim; auto | exact HVd].
    rewrite Hfill, Hnu, (CopySym_square xv Vd d Hxv HV). reflexivity. }
  assert (Es1 : s1 = mkState (filled w0) (<[l := ScaleSym nu0 Vd]> (syms s))
                       (chols s) (rng s)).
  { subst s1. rewrite E1. reflexivity. }
  split; [rewrite E1, Es1; reflexivity|].
  assert (Hl1 : syms s1 !! l = Some (ScaleSym nu0 Vd)).
  { rewrite Es1. simpl. apply heap_lookup_insert. }
  split; [exact Hl1|].
  pose proof (square_ScaleSym nu0 Vd d HV) as Hsq.
  rewrite (MeanSym_buffer l (ScaleSym nu0 Vd) s1 Vd Hl1);
    [| rewrite Hdim1; auto | exact HVd1].
  rewrite Hfill1, Hnu1, (CopySym_square _ Vd d Hsq HV).
  rewrite Es1. simpl. rewrite (insert_insert_eq (M:=gmap positive)). reflexivity.
Qed.

(** ** Sampling and the mean together *)

Lemma MeanSym_chols_rng x (s : State) :
  chols (MeanSym x s).2 = chols s /\ rng (MeanSym x s).2 = rng s.
Proof.
  destruct x as [l|].
  - destruct (MeanSym_some_frame l s) as (H1 & H2 & _). auto.
  - rewrite MeanSym_nil.
    destruct (MeanSym_some_frame (fresh (dom (syms s)))
                (with_syms s (<[fresh (dom (syms s)) :=
                                  NewSymDense (dim (wish s))]> (syms s))))
      as (H1 & H2 & _). auto.
Qed.

(** X7.  [MeanSym] and [RandChol] do not interfere: from any state, in
    either order, each returns what it returns when called alone, and the
    two orders end in the same state.  The sample does not depend on
    whether the mean was computed, and computing the mean consumes no
    randomness. *)
Theorem MeanSym_RandChol_commute (x c : option loc) (s : State) :
  (RandChol c (MeanSym x s).2).1 = (RandChol c s).1 /\
  (MeanSym x (RandChol c s).2).1 = (MeanSym x s).1 /\
  (RandChol c (MeanSym x s).2).2 = (MeanSym x (RandChol c s).2).2.
Proof.
  destruct (MeanSym_chols_rng x s) as [Hch Hrn].
  assert (HW : wish (MeanSym x s).2 = wish s \/
               wish (MeanSym x s).2 = filled (wish s)).
  { destruct (MeanSym_wish x s) as [H|[_ H]]; auto. }
  assert (E1 : RandChol c (MeanSym x s).2
               = ((RandChol c s).1,
                  mkState (wish (MeanSym x s).2) (syms (MeanSym x s).2)
                    (chols (RandChol c s).2) (rng (RandChol c s).2))).
  { pose proof (RandChol_run c s) as H1. cbv zeta in H1.
    pose proof (RandChol_run c (MeanSym x s).2) as H2. cbv zeta in H2.
    rewrite H2, H1, Hch, Hrn.
    assert (HB : Bartlett_draws (wish (MeanSym x s).2) (rng s)
                 = Bartlett_draws (wish s) (rng s))
      by (destruct HW as [-> | ->]; reflexivity).
    rewrite HB.
    destruct (Bartlett_draws (wish s) (rng s)) as [[p|msg|] r']; simpl;
      [|reflexivity|reflexivity].
    destruct HW as [HW|HW]; rewrite HW; reflexivity. }
  assert (E2 : MeanSym x (RandChol c s).2
               = ((MeanSym x s).1,
                  mkState (wish (MeanSym x s).2) (syms (MeanSym x s).2)
                    (chols (RandChol c s).2) (rng (RandChol c s).2))).
  { pose proof (RandChol_run c s) as H1. cbv zeta in H1.
    rewrite H1.
    destruct (Bartlett_draws (wish s) (rng s)) as [[p|msg|] r']; simpl;
      apply MeanSym_params. }
  rewrite E1, E2. auto.
Qed.

(** X8.  On a distribution built by [NewWishart], of dimension [d], in
    any state it can reach, one [RandChol] call runs, in this order, the
    [d] chi-squared samplers of the diagonal and then the [d*(d-1)/2]
    standard normal samplers of the strict upper triangle, up to the first
    that does not return, and nothing else touches the random sources:
    the call returns, panics or hangs as that run does, and leaves the
    sources as that run leaves them. *)
Theorem RandChol_draw_count vm nu0 src0 w0 (c : option loc) (s : State) :
  constructed vm nu0 src0 w0 ->
  reachable w0 s ->
  let w := wish s in
  let d := Symmetric vm in
  let run := draws (chi_samplers w ++ normal_samplers w) (rng s) in
  (RandChol c s).1
  = Result_map (fun _ => match c with
                         | Some l0 => l0
                         | None => fresh (dom (chols s))
                         end) run.1 /\
  rng (RandChol c s).2 = run.2 /\
  length (chi_samplers w) = Z.to_nat d /\
  2 * Z.of_nat (length (normal_samplers w)) = d * (d - 1).
Proof.
  intros Hc Hr w d run. subst w d run.
  destruct (constructed_fields _ _ _ _ Hc) as (_ & _ & _ & Hw0).
  destruct (reachable_fields _ _ Hr) as (_ & Hdim & _).
  rewrite Hw0 in Hdim. simpl in Hdim.
  pose proof (RandChol_run c s) as H1. cbv zeta in H1.
  destruct (Bartlett_draws_app (wish s) (rng s)) as [Hrn Ho].
  split; [|split; [|split]].
  - rewrite <- Ho, H1.
    destruct (Bartlett_draws (wish s) (rng s)) as [[p|msg|] r']; reflexivity.
  - rewrite <- Hrn, H1.
    destruct (Bartlett_draws (wish s) (rng s)) as [[p|msg|] r']; reflexivity.
  - unfold chi_samplers. rewrite length_fmap, length_seqZ, Hdim. reflexivity.
  - unfold normal_samplers. rewrite length_fmap, Hdim.
    apply length_upper_pos. unfold Symmetric. lia.
Qed.

(** ** Degrees of freedom at the edges *)

(** Past the test of [nu], [NewWishart] is the factorisation. *)
Lemma not_panic_of_leb vm (nu0 : float64) src0 :
  (nu0 <=? float64_of_int (Symmetric vm - 1))%float = false ->
  NewWishart vm nu0 src0 <> Panic "wishart: nu must be greater than dim-1" /\
  ((Factorize vm).2 = true -> Valid (Factorize vm).1 = true ->
   exists w, NewWishart vm nu0 src0 = Ok (Some w, true) /\
             nu w = nu0 /\ dim w = Symmetric vm).
Proof.
  intros H. unfold NewWishart. rewrite H.
  destruct (Factorize vm) as [c ok]. simpl. split.
  - destruct ok; simpl; [|discriminate].
    destruct (Valid c); simpl; discriminate.
  - intros -> ->. simpl. eauto.
Qed.

Lemma panic_of_leb vm (nu0 : float64) src0 :
  (nu0 <=? float64_of_int (Symmetric vm - 1))%float = true ->
  NewWishart vm nu0 src0 = Panic "wishart: nu must be greater than dim-1".
Proof. intros H. unfold NewWishart. rewrite H. reflexivity. Qed.

(** [float64(dim-1)] is a finite number. *)
Lemma of_int_dim_finite z :
  -1 <= z < 2 ^ 63 ->
  match Prim2SF (float64_of_int z) with
  | S754_zero _ | S754_finite _ _ _ => True
  | _ => False
  end.
Proof.
  intros Hz. destruct (Z.eq_dec z (-1)) as [->|Hne].
  - change (Prim2SF (float64_of_int (-1)))
      with (S754_finite true 4503599627370496 (-52)). exact I.
  - pose proof (F64.of_int_nonneg z ltac:(lia)) as Hn.
    set (a := Prim2SF (float64_of_int z)) in *. clearbody a.
    destruct a as [[|]|[|]| |[|] m e]; try (exfalso; exact Hn); exact I.
Qed.

(** X9.  [NewWishart] does not reject a degrees-of-freedom parameter that
    is NaN or positive infinity: the test of [nu] passes for any scale
    matrix, and with a scale matrix whose factorisation succeeds and is
    valid the call returns a distribution holding that [nu]; it panics on
    negative infinity, for any scale matrix. *)
Theorem NewWishart_nonfinite_nu vm (nu0 : float64) src0 :
  Symmetric vm <= 2 ^ 63 ->
  (PrimFloat.is_nan nu0 = true \/ nu0 = PrimFloat.infinity ->
     NewWishart vm nu0 src0 <> Panic "wishart: nu must be greater than dim-1" /\
     ((Factorize vm).2 = true -> Valid (Factorize vm).1 = true ->
      exists w, NewWishart vm nu0 src0 = Ok (Some w, true) /\
                nu w = nu0 /\ dim w = Symmetric vm)) /\
  (nu0 = PrimFloat.neg_infinity ->
     NewWishart vm nu0 src0 = Panic "wishart: nu must be greater than dim-1").
Proof.
  intros Hd.
  assert (Hv : 0 <= Symmetric vm) by (unfold Symmetric; lia).
  pose proof (of_int_dim_finite (Symmetric vm - 1) ltac:(lia)) as Hf.
  split.
  - intros Hnu. apply not_panic_of_leb.
    rewrite FloatAxioms.leb_spec. unfold SFleb.
    destruct Hnu as [Hnan| ->].
    + rewrite (F64.Prim2SF_nan nu0 Hnan). reflexivity.
    + change (Prim2SF PrimFloat.infinity) with (S754_infinity false).
      set (a := Prim2SF (float64_of_int (Symmetric vm - 1))) in *. clearbody a.
      destruct a as [[|]|[|]| |[|] m e]; try (exfalso; exact Hf); reflexivity.
  - intros ->. apply panic_of_leb.
    rewrite FloatAxioms.leb_spec. unfold SFleb.
    change (Prim2SF PrimFloat.neg_infinity) with (S754_infinity true).
    set (a := Prim2SF (float64_of_int (Symmetric vm - 1))) in *. clearbody a.
    destruct a as [[|]|[|]| |[|] m e]; try (exfalso; exact Hf); reflexivity.
Qed.

(** X10.  For a whole number of degrees of freedom below [2^53] and a
    scale matrix of order at most [2^53], the test of [NewWishart] is the
    test on the integers: the call panics with the message of that test
    exactly when [nu <= dim - 1], so [nu = dim - 1] is rejected, and with
    [nu >= dim] and a scale matrix whose factorisation succeeds and is
    valid it returns a distribution. *)
Theorem NewWishart_integer_nu vm (k : Z) src0 :
  0 <= k < 2 ^ 53 ->
  Symmetric vm <= 2 ^ 53 ->
  (NewWishart vm (float64_of_int k) src0
   = Panic "wishart: nu must be greater than dim-1" <-> k <= Symmetric vm - 1) /\
  (Symmetric vm <= k ->
   (Factorize vm).2 = true -> Valid (Factorize vm).1 = true ->
   exists w, NewWishart vm (float64_of_int k) src0 = Ok (Some w, true) /\
             nu w = float64_of_int k /\ dim w = Symmetric vm).
Proof.
  intros Hk Hd.
  assert (Hv : 0 <= Symmetric vm) by (unfold Symmetric; lia).
  assert (Hleb : (float64_of_int k <=? float64_of_int (Symmetric vm - 1))%float
                 = (k <=? Symmetric vm - 1)).
  { destruct (Z.eq_dec (Symmetric vm) 0) as [H0|H0].
    - rewrite H0. change (0 - 1) with (-1).
      rewrite of_int_leb_minus_one by lia. symmetry. apply Z.leb_gt. lia.
    - apply of_int_leb; lia. }
  destruct (Z.leb_spec k (Symmetric vm - 1)) as [Hle|Hgt].
  - pose proof (panic_of_leb vm _ src0 Hleb) as Hp. split.
    + split; auto.
    + lia.
  - destruct (not_panic_of_leb vm _ src0 Hleb) as [Hn Hok]. split.
    + split; [intros Hp; contradiction|lia].
    + intros _. exact Hok.
Qed.

(** X11.  A distribution built with a NaN [nu] has no usable density: for
    every positive definite [X] of its order on which the solve succeeds,
    the log-density is NaN, whatever the external kernels return. *)
Theorem nan_nu_density vm nu0 src0 w0 (s : State) x cholX y :
  constructed vm nu0 src0 w0 ->
  PrimFloat.is_nan nu0 = true ->
  reachable w0 s ->
  Symmetric x = Symmetric vm ->
  Factorize x = (cholX, true) ->
  SolveCholesky (Factorize vm).1 (TriT (UFromCholesky cholX)) = (y, None) ->
  exists l,
    LogProbSym x s = (Ok l, s) /\ logProbSymChol cholX s = (Ok l, s) /\
    PrimFloat.is_nan l = true.
Proof.
  intros Hc Hnan Hr Hd Hf Hs.
  destruct (constructed_fields _ _ _ _ Hc) as (_ & _ & _ & Hw).
  destruct (reachable_fields _ _ Hr) as (Hnu & Hdim & Hch & Hld & _).
  rewrite Hw in Hnu, Hdim, Hch, Hld. simpl in *.
  eexists. split; [|split].
  - rewrite (LogProbSym_factorized x cholX s); [| rewrite Hdim; exact Hd | exact Hf].
    apply (logProbSymChol_ok cholX s y). rewrite Hch. exact Hs.
  - apply (logProbSymChol_ok cholX s y). rewrite Hch. exact Hs.
  - rewrite Hnu. apply nan_sub_l, nan_mul_r.
    repeat apply nan_sub_l. apply nan_mul_l. repeat apply nan_sub_l.
    exact Hnan.
Qed.

End Further.
(** ** Concrete runs of the further properties *)

Section FurtherRuns.
#[local] Existing Instance Ref.impl.
#[local] Existing Instance Ref.consts.
Local Open Scope float_scope.

Ltac eval_refl :=
  lazymatch goal with
  | |- ?l = ?r =>
      let x := eval vm_compute in l in
      unify r x; exact (@eq_refl _ x)
  end.
Ltac eval_refl_neq :=
  lazymatch goal with
  | |- ?l = ?r -> _ =>
      let x := eval vm_compute in l in
      let y := eval vm_compute in r in
      change (x = y -> False); discriminate
  end.

Lemma density_history_independent_witness :
  (LogProbSym Demo.X
     (exec (CallRandChol None) (exec (CallMeanSym None) Demo.s0))).1
  = Ok (-0x1.e88b9cf86b214p+2).
Proof.
  destruct (density_history_independent Demo.w0
              (exec (CallRandChol None) (exec (CallMeanSym None) Demo.s0))
              Demo.s0 Demo.X (Factorize Demo.X).1) as [H _].
  - apply reach_call, reach_call, reach_new.
  - apply reach_new.
  - rewrite H. eval_refl.
Defined.

Lemma MeanSym_frame_witness :
  syms (MeanSym None Demo.s1).2 !! 1%positive = Some (NewSymDense 2) /\
  rng (MeanSym None Demo.s1).2 = 42%Z.
Proof.
  pose proof (MeanSym_frame None Demo.s1) as H. cbv zeta in H.
  destruct H as (_ & Hr & Hs). split.
  - rewrite Hs; [eval_refl|]. exists (NewSymDense 2). eval_refl.
  - rewrite Hr. reflexivity.
Defined.

Lemma cache_invariant_witness :
  dim (wish (exec (CallMeanSym None) Demo.sone)) = 1%Z.
Proof.
  destruct (cache_invariant (C:=Ref.impl) Demo.Vone 3 tt Demo.wone
              (exec (CallMeanSym None) Demo.sone)) as (Hd & _ & _).
  - exact constructed_wone.
  - apply reach_call, reach_new.
  - rewrite Hd. reflexivity.
Defined.

Lemma MeanSym_never_panics_witness :
  exists s', MeanSym (Some 1%positive) Demo.s1 = (Ok 1%positive, s').
Proof.
  destruct (MeanSym_never_panics (C:=Ref.impl) Demo.V Demo.nu0 tt Demo.w0
              Demo.s1 (Some 1%positive))
    as (l & xm & s' & Hrun & Hl & _).
  - exact constructed_w0.
  - apply reach_new.
  - exists (NewSymDense 2). split; [eval_refl|reflexivity].
  - exists s'. rewrite Hrun, Hl. reflexivity.
Defined.

Lemma MeanSym_idempotent_witness :
  MeanSym (Some 1%positive) (MeanSym (Some 1%positive) Demo.s1).2
  = (Ok 1%positive, (MeanSym (Some 1%positive) Demo.s1).2).
Proof.
  pose proof (MeanSym_idempotent (C:=Ref.impl) Demo.V Demo.nu0 tt Demo.w0
                Demo.s1 1%positive (NewSymDense 2)) as H.
  cbv zeta in H. apply H.
  - exact constructed_w0.
  - apply reach_new.
  - split; [reflexivity|]. repeat constructor.
  - eval_refl.
  - split; [reflexivity|]. repeat constructor.
Defined.

Lemma RandChol_draw_count_witness :
  length (chi_samplers Demo.w0) = 2%nat /\
  Z.of_nat (length (normal_samplers Demo.w0)) = 1%Z /\
  (RandChol None Demo.s0).1 = Ok 1%positive /\
  (RandChol None Demo.sinf).1 = NoReturn.
Proof.
  pose proof (RandChol_draw_count (C:=Ref.impl) Demo.V Demo.nu0 tt Demo.w0
                None Demo.s0 constructed_w0 (reach_new _ _ _ _)) as H.
  cbv zeta in H. destruct H as (Hout & _ & Hchi & Hnorm).
  pose proof (RandChol_draw_count (C:=Ref.impl) Demo.Vid infinity tt Demo.winf
                None Demo.sinf eq_refl (reach_new _ _ _ _)) as H'.
  cbv zeta in H'. destruct H' as (Hout' & _).
  assert (Hd : Symmetric Demo.V = 2%Z) by reflexivity.
  rewrite Hd in Hnorm, Hchi. split; [exact Hchi|].
  change (wish Demo.s0) with Demo.w0 in Hnorm.
  split; [lia|]. split; [rewrite Hout|rewrite Hout']; eval_refl.
Defined.

Lemma NewWishart_nonfinite_nu_witness :
  NewWishart Demo.Vempty nan tt
  <> Panic "wishart: nu must be greater than dim-1" /\
  (exists w, NewWishart Demo.Vid nan tt = Ok (Some w, true) /\
             nu w = nan /\ dim w = 1%Z) /\
  NewWishart Demo.V neg_infinity tt
  = Panic "wishart: nu must be greater than dim-1".
Proof.
  split; [|split].
  - apply (NewWishart_nonfinite_nu (C:=Ref.impl) Demo.Vempty nan tt).
    + discriminate.
    + left. reflexivity.
  - apply (NewWishart_nonfinite_nu (C:=Ref.impl) Demo.Vid nan tt).
    + discriminate.
    + left. reflexivity.
    + eval_refl.
    + eval_refl.
  - apply (NewWishart_nonfinite_nu (C:=Ref.impl) Demo.V neg_infinity tt).
    + discriminate.
    + reflexivity.
Defined.

Lemma NewWishart_integer_nu_witness :
  NewWishart Demo.V (float64_of_int 1) tt
  = Panic "wishart: nu must be greater than dim-1" /\
  (exists w, NewWishart Demo.V (float64_of_int 2) tt = Ok (Some w, true) /\
             nu w = float64_of_int 2 /\ dim w = 2%Z) /\
  NewWishart Demo.Vempty (float64_of_int 0) tt
  <> Panic "wishart: nu must be greater than dim-1".
Proof.
  split; [|split].
  - apply (NewWishart_integer_nu (C:=Ref.impl) Demo.V 1 tt).
    + split; [discriminate|reflexivity].
    + discriminate.
    + discriminate.
  - apply (NewWishart_integer_nu (C:=Ref.impl) Demo.V 2 tt).
    + split; [discriminate|reflexivity].
    + discriminate.
    + discriminate.
    + eval_refl.
    + eval_refl.
  - intros Hp.
    apply (NewWishart_integer_nu (C:=Ref.impl) Demo.Vempty 0 tt) in Hp.
    + apply Hp. reflexivity.
    + split; [discriminate|reflexivity].
    + discriminate.
Defined.

Lemma nan_nu_density_witness :
  exists l,
    LogProbSym Demo.Vid (mkState Demo.wnan ∅ ∅ 42%Z)
    = (Ok l, mkState Demo.wnan ∅ ∅ 42%Z) /\
    PrimFloat.is_nan l = true.
Proof.
  edestruct (nan_nu_density (C:=Ref.impl) Demo.Vid nan tt Demo.wnan
               (mkState Demo.wnan ∅ ∅ 42%Z) Demo.Vid) as (l & H1 & _ & H3).
  - reflexivity.
  - reflexivity.
  - apply reach_new.
  - reflexivity.
  - eval_refl.
  - eval_refl.
  - exists l. split; [exact H1|exact H3].
Defined.

Lemma density_panics_iff_witness :
  (exists msg, (LogProbSym Demo.X1 Demo.s0).1 = Panic msg) /\
  (exists msg, (LogProbSymChol Cholesky_zero Demo.s0).1 = Panic msg) /\
  ~ (exists msg, (LogProbSymChol (Factorize Demo.X).1 Demo.s0).1 = Panic msg).
Proof.
  pose proof (fun x cholX =>
    density_panics_iff (C:=Ref.impl) Demo.V Demo.nu0 tt Demo.w0 Demo.s0 x cholX
      constructed_w0 (reach_new _ _ _ _)) as H.
  split; [|split].
  - apply (H Demo.X1 Cholesky_zero). discriminate.
  - apply (H Demo.X1 Cholesky_zero). left. reflexivity.
  - intros Hp. apply (H Demo.X1 (Factorize Demo.X).1) in Hp.
    destruct Hp as [Hp|Hp]; [revert Hp; eval_refl_neq|apply Hp; reflexivity].
Defined.

End FurtherRuns.
